(** * pkgcore.ebuild.conditionals: DepSet parsing, evaluation, condition
      extraction and stringification.

    A shallow embedding of [src/pkgcore/ebuild/conditionals.py]: the
    pure-Python parser of [DepSet.parse] (the branch taken when the C
    extension [_depset] is not importable, i.e. [parse_depset is None]),
    the choice between it and the C extension in front of it
    ([DepSet_parse]), the lazily computed views [node_conds], [has_conditionals] and
    [known_conditionals], [evaluate_depset], [find_cond_nodes] and the two
    stringifier functions. *)

From Stdlib Require Import Ascii String.
From Equations Require Import Equations.
From stdpp Require Import base decidable option list functions gmap strings.

Local Open Scope string_scope.
Local Open Scope list_scope.

#[local] Set Warnings "-register-all,-clear-no-such-hyp".

(** ** Python string primitives used by the module *)

Module PyStr.

(** The characters [str.split()] treats as separators. *)
Definition is_whitespace (c : ascii) : bool :=
  match nat_of_ascii c with
  | 9 | 10 | 11 | 12 | 13 | 32 => true
  | _ => false
  end.

(** [s.split()]: maximal runs of non-whitespace characters. [cur] is the
    word being read, if one has been started. *)
Fixpoint split_go (cur : option string) (s : string) : list string :=
  match s with
  | EmptyString => option_list cur
  | String c s' =>
      if is_whitespace c
      then option_list cur ++ split_go None s'
      else split_go (Some (from_option (λ w, w +:+ String c "") (String c "") cur)) s'
  end.

Definition split (s : string) : list string := split_go None s.

(** [sep.join(l)] *)
Fixpoint join (sep : string) (l : list string) : string :=
  match l with
  | [] => ""
  | [x] => x
  | x :: l' => x +:+ sep +:+ join sep l'
  end.

(** [s[0]] and [s[-1]]; [None] stands for the [IndexError] of an empty
    string. *)
Definition first (s : string) : option ascii :=
  match s with
  | EmptyString => None
  | String c _ => Some c
  end.

Fixpoint last (s : string) : option ascii :=
  match s with
  | EmptyString => None
  | String c EmptyString => Some c
  | String _ s' => last s'
  end.

(** [s[1:]] and [s[:-1]] *)
Definition tail (s : string) : string :=
  match s with
  | EmptyString => EmptyString
  | String _ s' => s'
  end.

Fixpoint init (s : string) : string :=
  match s with
  | EmptyString => EmptyString
  | String _ EmptyString => EmptyString
  | String c s' => String c (init s')
  end.

(** [c in s] for a single character [c] *)
Fixpoint contains (c : ascii) (s : string) : bool :=
  match s with
  | EmptyString => false
  | String d s' => if decide (c = d) then true else contains c s'
  end.

Definition no_whitespace (s : string) : bool :=
  forallb (λ c, negb (is_whitespace c)) (list_ascii_of_string s).

End PyStr.

(** ** Exceptions *)

(** The exceptions the module raises or lets through. [ParseError] takes the
    dependency string and, optionally, a token or the exception that caused
    it ([ParseError(dep_str)], [ParseError(dep_str, k)],
    [ParseError(dep_str, e)]). [IgnoredException] is any member of
    snakeoil's [IGNORED_EXCEPTIONS]; [OtherException] any other subclass of
    [Exception]. *)
Inductive exn : Type :=
| ParseError (dep_str : string) (token : pe_token)
| IndexError
| StopIteration
| ValueError
| AssertionError
| IgnoredException (name : string)
| OtherException (name : string)
with pe_token : Type :=
| NoToken
| Token (k : string)
| Cause (e : exn).

Definition is_ParseError (e : exn) : bool :=
  match e with
  | ParseError _ _ => true
  | _ => false
  end.

(** ** Tree model *)

(** [boolean.AndRestriction] and [boolean.OrRestriction], the classes the
    operator map sends the empty tag and [||] to. *)
Inductive boolean_cls : Type := AndRestriction | OrRestriction.

#[global] Instance boolean_cls_eq_dec : EqDecision boolean_cls.
Proof. solve_decision. Defined.

(** [values.ContainmentMatch]: a set of values and a negation flag. *)
Record ContainmentMatch : Type := mkContainmentMatch {
  vals : gset string;
  negate : bool
}.

#[global] Instance ContainmentMatch_eq_dec : EqDecision ContainmentMatch.
Proof. solve_decision. Defined.

(** The class objects that can be passed as [element_class]. *)
Inductive ElementClass : Type :=
| atom
| transitive_use_atom
| other_class (name : string).

Section Tree.
Context {A : Type}.

(** A node of a DepSet. [Leaf] is an element built by the element
    function; [TransitiveLeaf] is an element that is an instance of
    [transitive_use_atom], kept together with the value of its
    [convert_to_conditionals()]; [Group] is an instance of one of the
    boolean classes; [Conditional] is [packages.Conditional(attr,
    restriction, payload)]. *)
Inductive node : Type :=
| Leaf (a : A)
| TransitiveLeaf (a : A) (conditionals : list node)
| Group (cls : boolean_cls) (restrictions : list node)
| Conditional (attr : string) (restriction : ContainmentMatch)
              (payload : list node).

(** What an element function returns. *)
Inductive element : Type :=
| PlainElement (a : A)
| TransitiveElement (a : A) (conditionals : list node).

Definition node_of_element (e : element) : node :=
  match e with
  | PlainElement a => Leaf a
  | TransitiveElement a cs => TransitiveLeaf a cs
  end.

(** Induction over nodes together with their lists of children. *)
Section node_induction.
Variable P : node → Prop.
Hypothesis HLeaf : ∀ a, P (Leaf a).
Hypothesis HTrans : ∀ a cs, Forall P cs → P (TransitiveLeaf a cs).
Hypothesis HGroup : ∀ cls rs, Forall P rs → P (Group cls rs).
Hypothesis HCond : ∀ attr r ps, Forall P ps → P (Conditional attr r ps).

Fixpoint node_ind' (n : node) : P n :=
  let fix go (l : list node) : Forall P l :=
    match l with
    | [] => @List.Forall_nil _ P
    | x :: l' => @List.Forall_cons _ P x l' (node_ind' x) (go l')
    end in
  match n with
  | Leaf a => HLeaf a
  | TransitiveLeaf a cs => HTrans a cs (go cs)
  | Group cls rs => HGroup cls rs (go rs)
  | Conditional attr r ps => HCond attr r ps (go ps)
  end.
End node_induction.

End Tree.

Arguments node : clear implicits.
Arguments element : clear implicits.

(** ** The DepSet object *)

(** What [find_cond_nodes] collects for a leaf and [node_conds] stores: the
    single restriction of the enclosing conditional, or
    [values.AndRestriction] over the restrictions of all of them. *)
Inductive cond_restriction : Type :=
| Single (c : ContainmentMatch)
| values_AndRestriction (cs : list ContainmentMatch).

Section DepSet.
Context {A : Type} `{Countable A}.

(** The slot [_node_conds] holds [True], [False] or, once [node_conds]
    has been read, the computed dict. *)
Inductive NodeConds : Type :=
| NCBool (b : bool)
| NCDict (d : gmap A (list cond_restriction)).

Record DepSet : Type := mkDepSet {
  restrictions : list (node A);
  element_class : ElementClass;
  _node_conds : NodeConds;
  _known_conditionals : option (gset string)
}.

(** [DepSet.__init__(restrictions, element_class, node_conds,
    known_conditionals=None)] *)
Definition DepSet_init (restrictions : list (node A))
    (element_class : ElementClass) (node_conds : NodeConds) : DepSet :=
  {| restrictions := restrictions;
     element_class := element_class;
     _node_conds := node_conds;
     _known_conditionals := None |}.

(** *** [DepSet.parse] *)

(** The default of [operators]. *)
Definition default_operators : gmap string boolean_cls :=
  {[ "||" := OrRestriction; "" := AndRestriction ]}.

Section parse.
(** [dep_str], the operator map and the element function are fixed
    during the loop over the words. The element function takes the
    token and, for a renamed file, the second token; it may raise. *)
Variable dep_str : string.
Variable operators : gmap string boolean_cls.
Variable element_func : string → option string → exn + element A.
Variable allow_src_uri_file_renames : bool.

(** The state of the loop: [depsets] and [raw_conditionals] are the two
    stacks, written with the top (Python's index [-1]) at the head of
    the list; the last component is the local [node_conds]. *)
Definition frames : Type := list (list (node A)) * list string * bool.

(** An exception leaves the loop together with the value [k] had when
    it was raised, which the [except StopIteration] clause reads. *)
Definition raise (k : string) (e : exn) : (string * exn) + frames :=
  inl (k, e).

(** The [for k in words] loop; [words.next()] takes the next word off
    the same iterator, [words.appendleft((k2,))] puts it back. *)
Fixpoint parse_words (words : list string) (depsets : list (list (node A)))
    (raw_conditionals : list string) (node_conds : bool) {struct words}
    : (string * exn) + frames :=
  match words with
  | [] => inr (depsets, raw_conditionals, node_conds)
  | k :: words1 =>
    if decide (k = ")") then
      match depsets with
      | [] => raise k IndexError
      | top :: below =>
        match top, raw_conditionals with
        | [], _ | _, [] => raise k (ParseError dep_str NoToken)
        | x :: xs, c :: raw_conditionals' =>
          match operators !! c with
          | Some op =>
            match below with
            | [] => raise k IndexError
            | parent :: rest =>
              match xs with
              | [] =>
                parse_words words1 ((parent ++ [x]) :: rest)
                            raw_conditionals' node_conds
              | _ =>
                parse_words words1 ((parent ++ [Group op top]) :: rest)
                            raw_conditionals' node_conds
              end
            end
          | None =>
            match PyStr.first c with
            | None => raise k IndexError
            | Some c0 =>
              let r :=
                if decide (c0 = "!"%char)
                then mkContainmentMatch {[ PyStr.init (PyStr.tail c) ]} true
                else mkContainmentMatch {[ PyStr.init c ]} false in
              match below with
              | [] => raise k IndexError
              | parent :: rest =>
                parse_words words1
                  ((parent ++ [Conditional "use" r top]) :: rest)
                  raw_conditionals' true
              end
            end
          end
        end
      end
    else if decide (k = "(") then
      parse_words words1 ([] :: depsets) ("" :: raw_conditionals) node_conds
    else
      match PyStr.last k with
      | None => raise k IndexError
      | Some kl =>
        if bool_decide (kl = "?"%char) || bool_decide (is_Some (operators !! k))
        then
          match words1 with
          | [] => raise k StopIteration
          | k2 :: words2 =>
            if decide (k2 = "(") then
              parse_words words2 ([] :: depsets) (k :: raw_conditionals)
                          node_conds
            else raise k (ParseError dep_str (Token k2))
          end
        else if PyStr.contains "|"%char k then
          raise k (ParseError dep_str (Token k))
        else
          match depsets with
          | [] => raise k IndexError
          | top :: below =>
            if allow_src_uri_file_renames then
              match words1 with
              | [] =>
                match element_func k None with
                | inl e => raise k e
                | inr x =>
                  parse_words words1 ((top ++ [node_of_element x]) :: below)
                              raw_conditionals node_conds
                end
              | k2 :: words2 =>
                if decide (k2 = "->") then
                  match words2 with
                  | [] => raise k StopIteration
                  | k3 :: words3 =>
                    match element_func k (Some k3) with
                    | inl e => raise k e
                    | inr x =>
                      parse_words words3
                        ((top ++ [node_of_element x]) :: below)
                        raw_conditionals node_conds
                    end
                  end
                else
                  match element_func k None with
                  | inl e => raise k e
                  | inr x =>
                    parse_words words1
                      ((top ++ [node_of_element x]) :: below)
                      raw_conditionals node_conds
                  end
              end
            else
              match element_func k None with
              | inl e => raise k e
              | inr x =>
                parse_words words1 ((top ++ [node_of_element x]) :: below)
                            raw_conditionals node_conds
              end
          end
      end
  end.

(** The [except] clauses around the loop: members of
    [IGNORED_EXCEPTIONS] and [IndexError] are raised again as they are,
    [StopIteration] becomes a [ParseError] naming [k], and every other
    exception becomes the cause of a [ParseError]. *)
Definition except (k : string) (e : exn) : exn :=
  match e with
  | IgnoredException _ => e
  | IndexError => e
  | StopIteration => ParseError dep_str (Token k)
  | _ => ParseError dep_str (Cause e)
  end.

End parse.

(** [iflatten_instance(iterable, atom)] followed by the [isinstance]
    test: groups are iterated through, atoms are not. [parse] calls it
    only on nodes that hold no conditional; a conditional is read as
    iterable through its payload. *)
Fixpoint is_or_holds_transitive (n : node A) : bool :=
  match n with
  | Leaf _ => false
  | TransitiveLeaf _ _ => true
  | Group _ rs => existsb is_or_holds_transitive rs
  | Conditional _ _ ps => existsb is_or_holds_transitive ps
  end.

Definition _has_transitive_use_atoms (iterable : list (node A)) : bool :=
  existsb is_or_holds_transitive iterable.

(** The constructor of each element class lives outside this module. *)
Variable instantiate : ElementClass → string → option string → exn + element A.

(** [DepSet.parse(dep_str, element_class, operators, element_func,
    transitive_use_atoms, allow_src_uri_file_renames)] on the path
    through the pure-Python loop, lines 96 to 198; the choice between
    this path and the C extension is [DepSet_parse] below.
    [element_class] is a class by its type, so the [ValueError] guard
    never fires. *)
Definition parse (dep_str : string) (element_class : ElementClass)
    (operators : option (gmap string boolean_cls))
    (element_func : option (string → option string → exn + element A))
    (transitive_use_atoms allow_src_uri_file_renames : bool)
    : exn + DepSet :=
  let element_func := default (instantiate element_class) element_func in
  let operators := default default_operators operators in
  match parse_words dep_str operators element_func
          allow_src_uri_file_renames (PyStr.split dep_str) [[]] [] false with
  | inl (k, e) => inl (except dep_str k e)
  | inr (depsets, _, node_conds) =>
    match depsets with
    | [restrictions] =>
      if transitive_use_atoms && negb node_conds then
        inr (DepSet_init restrictions transitive_use_atom
               (NCBool (_has_transitive_use_atoms restrictions)))
      else
        inr (DepSet_init restrictions element_class (NCBool node_conds))
    | _ => inl (ParseError dep_str NoToken)
    end
  end.

End DepSet.

Arguments DepSet A {_ _}.
Arguments NodeConds A {_ _}.
Arguments frames : clear implicits.

(** *** [DepSet.parse]: the choice of the parser *)

Section DepSet_parse.
Context {A : Type} `{Countable A}.
Variable instantiate : ElementClass → string → option string → exn + element A.

(** The class attribute [parse_depset], when the C extension [_depset]
    could be imported: called with the string, the element function and
    the classes for the empty tag and for [||] (either may be [None],
    the value of [operators.get]), it returns [has_conditionals] and the
    restrictions, or raises. The extension itself is outside this
    module. *)
Definition native_parser : Type :=
  string → (string → option string → exn + element A) →
  option boolean_cls → option boolean_cls →
  exn + (bool * option (list (node A))).

(** Lines 76 to 89 of [parse]: the call of the native parser, when one
    is made. None is made when the extension is missing, when file
    renames are allowed, and when the operator map has a key other than
    the empty tag and [||]; [restrictions] then stays [None]. *)
Definition native_call (parse_depset : option native_parser)
    (dep_str : string)
    (element_func : string → option string → exn + element A)
    (operators : option (gmap string boolean_cls))
    (allow_src_uri_file_renames : bool)
    : option (exn + (bool * option (list (node A)))) :=
  match parse_depset with
  | Some native =>
    if allow_src_uri_file_renames then None
    else
      match operators with
      | None =>
        Some (native dep_str element_func
                     (Some AndRestriction) (Some OrRestriction))
      | Some ops =>
        if bool_decide (dom ops ⊆ ({[ ""; "||" ]} : gset string))
        then Some (native dep_str element_func (ops !! "") (ops !! "||"))
        else None
      end
  | None => None
  end.

(** The whole of [DepSet.parse]: when the native parser was called and
    returned restrictions, the DepSet is built from them with the
    element class given (lines 91 to 94); in every other case the
    pure-Python loop [parse] runs (lines 96 to 198). An exception of the
    native parser is not caught. *)
Definition DepSet_parse (parse_depset : option native_parser)
    (dep_str : string) (element_class : ElementClass)
    (operators : option (gmap string boolean_cls))
    (element_func : option (string → option string → exn + element A))
    (transitive_use_atoms allow_src_uri_file_renames : bool)
    : exn + DepSet A :=
  match native_call parse_depset dep_str
          (default (instantiate element_class) element_func)
          operators allow_src_uri_file_renames with
  | Some (inl e) => inl e
  | Some (inr (has_conditionals, Some restrictions)) =>
    let has_conditionals :=
      if negb has_conditionals && transitive_use_atoms
      then _has_transitive_use_atoms restrictions
      else has_conditionals in
    inr (DepSet_init restrictions element_class (NCBool has_conditionals))
  | _ =>
    parse instantiate dep_str element_class operators element_func
          transitive_use_atoms allow_src_uri_file_renames
  end.

End DepSet_parse.

(** ** Condition extraction *)

Section find_cond_nodes.
Context {A : Type}.

(** The number of items the walk takes off its chain for a node: one for
    the node, one for the [None] that closes a conditional, and those of
    everything the node puts on the chain. *)
Fixpoint node_work (n : node A) : nat :=
  match n with
  | Leaf _ => 1
  | TransitiveLeaf _ cs => S (sum_list_with node_work cs)
  | Group _ rs => S (sum_list_with node_work rs)
  | Conditional _ _ ps => S (S (sum_list_with node_work ps))
  end.

Definition chain_work (new_set : list (option (node A))) : nat :=
  sum_list_with (from_option node_work 1) new_set.

(** The body of [find_cond_nodes]: [new_set] is the expandable chain,
    [appendleft] puts items in front of it, and the [None] after a
    conditional's payload pops [conditions_stack]. The list returned is
    the sequence of pairs the generator yields. *)
Equations? find_cond_nodes_loop (yield_non_conditionals : bool)
    (conditions_stack : list ContainmentMatch)
    (new_set : list (option (node A)))
    : exn + list (A * list ContainmentMatch)
    by wf (chain_work new_set) lt :=
  find_cond_nodes_loop ync stack [] := inr [];
  find_cond_nodes_loop ync stack (Some (Conditional _ r payload) :: rest) :=
    find_cond_nodes_loop ync (stack ++ [r])
                         ((Some <$> payload) ++ None :: rest);
  find_cond_nodes_loop ync stack (Some (TransitiveLeaf _ cs) :: rest) :=
    find_cond_nodes_loop ync stack ((Some <$> cs) ++ rest);
  find_cond_nodes_loop ync stack (Some (Group _ rs) :: rest) :=
    find_cond_nodes_loop ync stack ((Some <$> rs) ++ rest);
  find_cond_nodes_loop ync stack (None :: rest) :=
    match stack with
    | [] => inl IndexError
    | _ :: _ => find_cond_nodes_loop ync (removelast stack) rest
    end;
  find_cond_nodes_loop ync stack (Some (Leaf a) :: rest) :=
    if negb (bool_decide (stack = [])) || ync
    then match find_cond_nodes_loop ync stack rest with
         | inl e => inl e
         | inr l => inr ((a, stack) :: l)
         end
    else find_cond_nodes_loop ync stack rest.
Proof.
  all: assert (Hsome : ∀ ns : list (node A),
         chain_work (Some <$> ns) = sum_list_with node_work ns)
    by (intros ns; unfold chain_work; induction ns as [|n' ns IHns];
        [done | rewrite fmap_cons; simpl; by f_equal]).
  all: unfold chain_work in *; rewrite ?sum_list_with_app, ?Hsome; simpl; lia.
Qed.

Definition find_cond_nodes (restriction_set : list (node A))
    (yield_non_conditionals : bool) : exn + list (A * list ContainmentMatch) :=
  find_cond_nodes_loop yield_non_conditionals [] (Some <$> restriction_set).

End find_cond_nodes.

(** ** The derived views of a DepSet *)

Section views.
Context {A : Type} `{Countable A}.

(** What the loop of [node_conds] does with one yielded pair:
    [always_required.add(payload)] for a leaf under no conditional,
    [nc.setdefault(payload, []).append(current)] otherwise. *)
Definition node_conds_step
    (acc : gmap A (list cond_restriction) * gset A)
    (y : A * list ContainmentMatch)
    : gmap A (list cond_restriction) * gset A :=
  let '(nc, always_required) := acc in
  let '(payload, restrictions) := y in
  match restrictions with
  | [] => (nc, {[ payload ]} ∪ always_required)
  | [r] => (<[ payload := default [] (nc !! payload) ++ [Single r] ]> nc,
            always_required)
  | _ => (<[ payload := default [] (nc !! payload)
                          ++ [values_AndRestriction restrictions] ]> nc,
          always_required)
  end.

(** [for k in always_required: if k in nc: del nc[k]] *)
Definition drop_always_required (always_required : list A)
    (nc : gmap A (list cond_restriction)) : gmap A (list cond_restriction) :=
  foldl (λ nc k, if decide (is_Some (nc !! k)) then delete k nc else nc)
        nc always_required.

(** The dict built when [_node_conds is True]. The final conversion of
    each value to a tuple does not change the list. *)
Definition compute_node_conds (restrictions : list (node A))
    : exn + gmap A (list cond_restriction) :=
  match find_cond_nodes restrictions true with
  | inl e => inl e
  | inr yielded =>
    let '(nc, always_required) := foldl node_conds_step (∅, ∅) yielded in
    inr (drop_always_required (elements always_required) nc)
  end.

(** The property [node_conds]: the value read and the object after the
    read. *)
Definition node_conds (self : DepSet A)
    : exn + (gmap A (list cond_restriction) * DepSet A) :=
  match _node_conds self with
  | NCBool false =>
    inr (∅, mkDepSet (restrictions self) (element_class self) (NCDict ∅)
                     (_known_conditionals self))
  | NCBool true =>
    match compute_node_conds (restrictions self) with
    | inl e => inl e
    | inr nc =>
      inr (nc, mkDepSet (restrictions self) (element_class self) (NCDict nc)
                        (_known_conditionals self))
    end
  | NCDict d => inr (d, self)
  end.

(** The property [has_conditionals]: [bool(self._node_conds)]. *)
Definition has_conditionals (self : DepSet A) : bool :=
  match _node_conds self with
  | NCBool b => b
  | NCDict d => negb (bool_decide (d = ∅))
  end.

(** The property [known_conditionals]. *)
Definition known_conditionals (self : DepSet A)
    : exn + (gset string * DepSet A) :=
  match _node_conds self with
  | NCBool false => inr (∅, self)
  | _ =>
    match _known_conditionals self with
    | None =>
      match find_cond_nodes (restrictions self) false with
      | inl e => inl e
      | inr yielded =>
        let kc : gset string :=
          ⋃ ((λ y : A * list ContainmentMatch, ⋃ (vals <$> y.2)) <$> yielded) in
        inr (kc, mkDepSet (restrictions self) (element_class self)
                          (_node_conds self) (Some kc))
      end
    | Some kc => inr (kc, self)
    end
  end.

(** *** [evaluate_depset] *)

Section evaluate_depset.
(** [evaluate_conditionals] is inherited from [boolean.base]; here it
    stands for the nodes the call with [force_collapse=True] appends
    to [results]. *)
Variable evaluate_conditionals :
  DepSet A → gset string → option (gset string) → list (node A).

Definition evaluate_depset (self : DepSet A) (cond_dict : gset string)
    (tristate_filter : option (gset string)) : DepSet A :=
  if negb (has_conditionals self) then self
  else
    let results := evaluate_conditionals self cond_dict tristate_filter in
    DepSet_init results (element_class self) (NCBool false).
End evaluate_depset.

(** Modelled from the spec: [evaluate_conditionals] of
    [pkgcore.restrictions.boolean] and [packages.Conditional], which are
    not part of the sources at hand. Section 4.3: a group passes through
    with each child evaluated; a conditional whose flag is outside a
    given tristate filter, or whose flag is in the environment exactly
    when it is not negated, is replaced by its evaluated children and is
    dropped otherwise; section 4.4: a transitive leaf is read as the
    conditionals it converts to. [guard_holds] is the test on the
    conditional's restriction, whose [vals] hold the one flag. *)
Definition guard_holds (r : ContainmentMatch) (cond_dict : gset string)
    (tristate_filter : option (gset string)) : bool :=
  match tristate_filter with
  | Some locked =>
    if bool_decide (vals r ## locked) then true
    else xorb (negb (bool_decide (vals r ## cond_dict))) (negate r)
  | None => xorb (negb (bool_decide (vals r ## cond_dict))) (negate r)
  end.

(** Modelled from the spec: the walk of section 4.3 over one node, for
    the missing [evaluate_conditionals]; the result is the list of nodes
    that take the place of the node. *)
Fixpoint evaluate_node (cond_dict : gset string)
    (tristate_filter : option (gset string)) (n : node A) : list (node A) :=
  match n with
  | Leaf a => [Leaf a]
  | TransitiveLeaf _ cs =>
    concat (map (evaluate_node cond_dict tristate_filter) cs)
  | Group cls rs =>
    [Group cls (concat (map (evaluate_node cond_dict tristate_filter) rs))]
  | Conditional _ r ps =>
    if guard_holds r cond_dict tristate_filter
    then concat (map (evaluate_node cond_dict tristate_filter) ps)
    else []
  end.

(** Modelled from the spec: the missing [evaluate_conditionals] called on
    a DepSet with [force_collapse=True], as the nodes it appends to
    [results]: the evaluation of each root node, in order. *)
Definition spec_evaluate_conditionals (self : DepSet A)
    (cond_dict : gset string) (tristate_filter : option (gset string))
    : list (node A) :=
  concat (map (evaluate_node cond_dict tristate_filter) (restrictions self)).

End views.

(** ** Stringification *)

(** The state of a leaf object, as far as [_internal_stringify_boolean]
    looks at it: whether it is an [atom], and then its [slot_operator],
    [slot] and [subslot] attributes; [atom_text] stands for the rest of
    the atom. *)
Record atom_fields : Type := mkAtomFields {
  atom_text : string;
  slot_operator : option string;
  slot : option string;
  subslot : option string
}.

Inductive leaf_obj : Type :=
| AtomObj (f : atom_fields)
| OtherObj (text : string).

(** Modelled from the spec: the packages the domain returns are compared
    by [sorted] and [max] through methods of the package class, which is
    not part of the sources at hand; section 6 speaks of the
    highest-ranked installed package, and [pkg_rank] is that rank. The
    fields [pkg_slot] and [pkg_subslot] are the attributes the stringifier
    reads. *)
Record pkg : Type := mkPkg {
  pkg_rank : nat;
  pkg_slot : option string;
  pkg_subslot : option string
}.

(** [domain.all_livefs_repos.itermatch(node)]: the packages matched, or
    the exception the lookup raises. *)
Record Domain : Type := mkDomain {
  itermatch : leaf_obj → exn + list pkg
}.

(** [sorted(l)]: stable, ascending. *)
Fixpoint insert_sorted (x : pkg) (l : list pkg) : list pkg :=
  match l with
  | [] => [x]
  | y :: l' =>
    if decide (pkg_rank y < pkg_rank x) then y :: insert_sorted x l'
    else x :: l
  end.

Definition sorted (l : list pkg) : list pkg := foldr insert_sorted [] l.

(** [max(l)]: the first of the greatest items; [None] is the [ValueError]
    of an empty sequence. *)
Definition py_max (l : list pkg) : option pkg :=
  match l with
  | [] => None
  | x :: l' =>
    Some (foldl (λ m y, if decide (pkg_rank m < pkg_rank y) then y else m) x l')
  end.

Section stringify.
(** [A] names the leaf objects of the tree; the store gives the current
    state of each of them, so that a leaf met twice is one object. *)
Context {A : Type} `{Countable A}.

Abbreviation store := (A → leaf_obj).

(** The test guarding the slot rewrite. *)
Definition slot_locked (o : leaf_obj) : bool :=
  match o with
  | AtomObj f => bool_decide (slot_operator f = Some "=")
  | OtherObj _ => false
  end.

(** The two [object.__setattr__] calls. *)
Definition set_slots (p : pkg) (o : leaf_obj) : leaf_obj :=
  match o with
  | AtomObj f =>
    AtomObj (mkAtomFields (atom_text f) (slot_operator f)
                          (pkg_slot p) (pkg_subslot p))
  | OtherObj t => OtherObj t
  end.

Section internal.
Variable domain : option Domain.
Variable func : leaf_obj → string.

(** [visit] is the [append] of the list [l] of [stringify_boolean]. *)
Definition visit (s : string) (st : store * list string)
    : store * list string :=
  (st.1, st.2 ++ [s]).

(** The branch of [_internal_stringify_boolean] for a node that is
    neither a group nor a conditional. *)
Definition stringify_leaf (a : A) (st : store * list string)
    : option exn * (store * list string) :=
  let o := st.1 a in
  match domain with
  | Some d =>
    if slot_locked o then
      match itermatch d o with
      | inl e => (Some e, st)
      | inr matched =>
        match py_max (sorted matched) with
        | None => (Some ValueError, st)
        | Some p =>
          let o' := set_slots p o in
          (None, visit (func o') (<[ a := o' ]> st.1, st.2))
        end
      end
    else (None, visit (func o) st)
  | None => (None, visit (func o) st)
  end.

(** The [visit(")")] that follows the loop over the children, unless the
    loop raised. *)
Definition close_group (r : option exn * (store * list string))
    : option exn * (store * list string) :=
  match r with
  | (None, st') => (None, visit ")" st')
  | raised => raised
  end.

(** [_internal_stringify_boolean(node, domain, func, visit)]: the
    state is the store and the list [visit] appends to; the first
    component of the result is the exception raised, if any. *)
Fixpoint _internal_stringify_boolean (n : node A) (st : store * list string)
    {struct n} : option exn * (store * list string) :=
  let fix each (iterable : list (node A)) (st : store * list string)
      {struct iterable} : option exn * (store * list string) :=
    match iterable with
    | [] => (None, st)
    | m :: iterable' =>
      match _internal_stringify_boolean m st with
      | (None, st') => each iterable' st'
      | raised => raised
      end
    end in
  match n with
  | Group OrRestriction rs => close_group (each rs (visit "|| (" st))
  | Group AndRestriction rs => close_group (each rs (visit "(" st))
  | Conditional _ r payload =>
    match elements (vals r) with
    | [v] =>
      close_group
        (each payload
              (visit ((if negate r then "!" else "") +:+ v +:+ "? (") st))
    | _ => (Some AssertionError, st)
    end
  | Leaf a => stringify_leaf a st
  | TransitiveLeaf a _ => stringify_leaf a st
  end.

(** The loop [for x in node.restrictions] of [stringify_boolean], which is
    also the loop over the children of a node. *)
Fixpoint stringify_each (iterable : list (node A)) (st : store * list string)
    : option exn * (store * list string) :=
  match iterable with
  | [] => (None, st)
  | m :: iterable' =>
    match _internal_stringify_boolean m st with
    | (None, st') => stringify_each iterable' st'
    | raised => raised
    end
  end.

End internal.

(** [stringify_boolean(node, func, domain)]; [node] is a DepSet or a
    single node. The result is the string or the exception, and the
    store as the call leaves it. *)
Definition stringify_boolean (n : DepSet A + node A) (func : leaf_obj → string)
    (domain : option Domain) (σ : store) : (exn + string) * store :=
  let r :=
    match n with
    | inl depset => stringify_each domain func (restrictions depset) (σ, [])
    | inr single => _internal_stringify_boolean domain func single (σ, [])
    end in
  match r with
  | (None, (σ', l)) => (inr (PyStr.join " " l), σ')
  | (Some e, (σ', _)) => (inl e, σ')
  end.

(** [DepSet.__str__] and [DepSet.slotdep_str]: both call
    [stringify_boolean] with the default [func=str], the text form the
    class of the leaf defines. *)
Variable str : leaf_obj → string.

Definition DepSet_str (self : DepSet A) (σ : store) : (exn + string) * store :=
  stringify_boolean (inl self) str None σ.

Definition slotdep_str (self : DepSet A) (domain : option Domain) (σ : store)
    : (exn + string) * store :=
  stringify_boolean (inl self) str domain σ.

End stringify.

(** * Notions used in the statements *)

(** ** A concrete element class for examples

    Elements are named by their token text; a renamed file is named by
    both tokens. The token [bad] is rejected the way [atom] rejects a
    malformed token. *)
Definition text_element (k : string) (rename : option string)
    : exn + element string :=
  if decide (k = "bad") then inl (OtherException "MalformedAtom")
  else inr (PlainElement (match rename with
                          | None => k
                          | Some r => k +:+ " -> " +:+ r
                          end)).

Definition text_instantiate (c : ElementClass) := text_element.

Definition parse_text (dep_str : string) : exn + DepSet string :=
  parse text_instantiate dep_str atom None None false false.

(** The restriction [parse] builds for the conditional token [flag?]. *)
Definition use_flag (flag : string) : ContainmentMatch :=
  mkContainmentMatch {[ flag ]} false.

(** How a leaf object is shown in the examples of [slotdep_str]. *)
Definition show_leaf (o : leaf_obj) : string :=
  match o with
  | AtomObj f =>
    atom_text f
    +:+ match slot f with Some s => ":" +:+ s | None => "" end
    +:+ match subslot f with Some s => "/" +:+ s | None => "" end
    +:+ match slot_operator f with Some s => s | None => "" end
  | OtherObj t => t
  end.

(** A store and a domain: the leaf [1] is the atom [dev-libs/foo:=] and
    every other leaf the atom [dev-libs/bar]; three installed packages
    match the first. *)
Definition example_store (a : nat) : leaf_obj :=
  match a with
  | 1 => AtomObj (mkAtomFields "dev-libs/foo:" (Some "=") None None)
  | _ => AtomObj (mkAtomFields "dev-libs/bar" None None None)
  end.

Definition example_domain : Domain :=
  mkDomain (λ o, match o with
                 | AtomObj f =>
                   if decide (slot_operator f = Some "=")
                   then inr [mkPkg 3 (Some "2") (Some "2.1");
                             mkPkg 7 (Some "3") (Some "3.0");
                             mkPkg 5 (Some "2") (Some "2.4")]
                   else inr []
                 | OtherObj _ => inr []
                 end).

(** ** Strings and tokens *)

Definition all_whitespace (s : string) : bool :=
  forallb PyStr.is_whitespace (list_ascii_of_string s).

(** A word: no whitespace in it, and not empty. *)
Definition word (k : string) : bool :=
  negb (bool_decide (k = "")) && PyStr.no_whitespace k.

(** [join] with a separator after every item, the last included. *)
Definition join_sep (l : list string) : string :=
  foldr (λ x acc, x +:+ " " +:+ acc) "" l.

Definition is_nil {X} (l : list X) : bool :=
  match l with
  | [] => true
  | _ :: _ => false
  end.

(** ** The grammar of section 4.1 of the specification *)

(** The restriction of a conditional token, in the words of the grammar:
    the flag is the token without its last character and without a
    leading [!], which negates it. *)
Definition flag_restriction (c : string) : ContainmentMatch :=
  match c with
  | String "!" _ => mkContainmentMatch {[ PyStr.init (PyStr.tail c) ]} true
  | _ => mkContainmentMatch {[ PyStr.init c ]} false
  end.

(** A leaf token of the grammar: not a parenthesis, not a conditional
    token, and with no [|] in it. *)
Definition leaf_token (k : string) : bool :=
  negb (bool_decide (k = ")")) && negb (bool_decide (k = "("))
  && negb (bool_decide (PyStr.last k = Some "?"%char))
  && negb (PyStr.contains "|"%char k).

(** The token sequences of the grammar that have no group of a single
    child: [depset_items n toks] when [toks] is a sequence of [n] items,
    each a leaf token, an AND group [( ... )] or an OR group [|| ( ... )]
    of two items or more, or a conditional [flag? ( ... )] of one item or
    more. *)
Inductive depset_items : nat → list string → Prop :=
| items_nil : depset_items 0 []
| items_leaf k n toks :
    word k = true → leaf_token k = true →
    depset_items n toks → depset_items (S n) (k :: toks)
| items_and m inner n toks :
    (2 ≤ m)%nat → depset_items m inner → depset_items n toks →
    depset_items (S n) ("(" :: inner ++ ")" :: toks)
| items_or m inner n toks :
    (2 ≤ m)%nat → depset_items m inner → depset_items n toks →
    depset_items (S n) ("||" :: "(" :: inner ++ ")" :: toks)
| items_cond c m inner n toks :
    word c = true → PyStr.last c = Some "?"%char →
    (1 ≤ m)%nat → depset_items m inner → depset_items n toks →
    depset_items (S n) (c :: "(" :: inner ++ ")" :: toks).

(** The leaf object an element stands for. *)
Definition element_name {A} (e : element A) : A :=
  match e with
  | PlainElement a => a
  | TransitiveElement a _ => a
  end.

(** Every leaf token of the sequence is accepted by the element function,
    and [func] renders the leaf built from it as the token. *)
Definition leaves_render {A}
    (element_func : string → option string → exn + element A)
    (func : leaf_obj → string) (σ : A → leaf_obj) (toks : list string) : Prop :=
  ∀ k, k ∈ toks → leaf_token k = true →
    ∃ x, element_func k None = inr x ∧ func (σ (element_name x)) = k.

(** ** The failures of section 7 of the specification *)

(** The ways a token sequence can fail, in the words of the
    specification: [EmptyOrUnmatchedClose] is a [)] with no open group or
    closing a group with no item in it; [MissingOpenParen k next] an
    operator or conditional token [k] followed by [next] and not by [(];
    [IllegalBar k] a token with a [|] in it that is no operator;
    [LeafFailure k e] the element function raising [e] on the leaf token
    [k]; [FramesLeftOpen] the tokens running out with a group still open.
    Two more are in the code and not in the specification:
    [MissingRenameTarget k], the tokens ending in [k ->] when file renames
    are allowed, and [UntaggedFrame], closing a group opened by a bare [(]
    when the operator map has no entry for the empty tag. *)
Inductive failure : Type :=
| EmptyOrUnmatchedClose
| MissingOpenParen (k : string) (next : option string)
| IllegalBar (k : string)
| LeafFailure (k : string) (e : exn)
| FramesLeftOpen
| MissingRenameTarget (k : string)
| UntaggedFrame.

Section spec_scan.
Context {A : Type}.
Variable operators : gmap string boolean_cls.
Variable element_func : string → option string → exn + element A.
Variable allow_src_uri_file_renames : bool.

(** The token [k] opens a tagged group: it is a conditional token or an
    operator key. *)
Definition opens_group (k : string) : bool :=
  bool_decide (PyStr.last k = Some "?"%char)
  || bool_decide (is_Some (operators !! k)).

Definition scan_leaf (k : string) (rename : option string)
    (continue : option failure) : option failure :=
  match element_func k rename with
  | inl e => Some (LeafFailure k e)
  | inr _ => continue
  end.

(** The first failure of a token sequence, read from left to right with
    the tags of the open groups and whether the innermost one is still
    empty; [None] when the sequence is accepted. No tree is built. *)
Fixpoint spec_scan (words : list string) (tags : list string) (top_empty : bool)
    {struct words} : option failure :=
  match words with
  | [] =>
    match tags with
    | [] => None
    | _ :: _ => Some FramesLeftOpen
    end
  | k :: words1 =>
    if decide (k = ")") then
      match tags with
      | [] => Some EmptyOrUnmatchedClose
      | c :: tags' =>
        if top_empty then Some EmptyOrUnmatchedClose
        else if bool_decide (is_Some (operators !! c))
                || negb (bool_decide (c = ""))
        then spec_scan words1 tags' false
        else Some UntaggedFrame
      end
    else if decide (k = "(") then spec_scan words1 ("" :: tags) true
    else if opens_group k then
      match words1 with
      | [] => Some (MissingOpenParen k None)
      | k2 :: words2 =>
        if decide (k2 = "(") then spec_scan words2 (k :: tags) true
        else Some (MissingOpenParen k (Some k2))
      end
    else if PyStr.contains "|"%char k then Some (IllegalBar k)
    else if allow_src_uri_file_renames then
      match words1 with
      | [] => scan_leaf k None (spec_scan words1 tags false)
      | k2 :: words2 =>
        if decide (k2 = "->") then
          match words2 with
          | [] => Some (MissingRenameTarget k)
          | k3 :: words3 => scan_leaf k (Some k3) (spec_scan words3 tags false)
          end
        else scan_leaf k None (spec_scan words1 tags false)
      end
    else scan_leaf k None (spec_scan words1 tags false)
  end.

End spec_scan.

(** The exception [parse] raises for a failure. *)
Definition raised (dep_str : string) (f : failure) : exn :=
  match f with
  | EmptyOrUnmatchedClose =>
    ParseError dep_str (Cause (ParseError dep_str NoToken))
  | MissingOpenParen k (Some k2) =>
    ParseError dep_str (Cause (ParseError dep_str (Token k2)))
  | MissingOpenParen k None => ParseError dep_str (Token k)
  | IllegalBar k => ParseError dep_str (Cause (ParseError dep_str (Token k)))
  | LeafFailure k e => except dep_str k e
  | FramesLeftOpen => ParseError dep_str NoToken
  | MissingRenameTarget k => ParseError dep_str (Token k)
  | UntaggedFrame => IndexError
  end.

(** The failures that do not surface as a [ParseError]: the [IndexError]
    of an untagged frame, and an [IndexError] or a member of
    [IGNORED_EXCEPTIONS] raised by the element function. *)
Definition propagates (f : failure) : bool :=
  match f with
  | UntaggedFrame => true
  | LeafFailure _ IndexError => true
  | LeafFailure _ (IgnoredException _) => true
  | _ => false
  end.

(** What [parse] makes of the way the loop ends. *)
Definition finish {A} (dep_str : string) (r : (string * exn) + frames A)
    : exn + (list (node A) * bool) :=
  match r with
  | inl (k, e) => inl (except dep_str k e)
  | inr ([restrictions], _, node_conds) => inr (restrictions, node_conds)
  | inr _ => inl (ParseError dep_str NoToken)
  end.

Definition scan_agrees {A} (dep_str : string) (s : option failure)
    (r : exn + (list (node A) * bool)) : Prop :=
  match s with
  | Some f => r = inl (raised dep_str f)
  | None => ∃ rs nc, r = inr (rs, nc)
  end.

(** ** Properties of trees and of DepSets *)

Section tree_properties.
Context {A : Type} `{Countable A}.

(** The pairs the walk of [find_cond_nodes] yields for one node met under
    the conditions [stack], by recursion on the tree. *)
Fixpoint yielded (ync : bool) (stack : list ContainmentMatch) (n : node A)
    : list (A * list ContainmentMatch) :=
  match n with
  | Leaf a => if negb (bool_decide (stack = [])) || ync then [(a, stack)] else []
  | TransitiveLeaf _ cs => concat (map (yielded ync stack) cs)
  | Group _ rs => concat (map (yielded ync stack) rs)
  | Conditional _ r ps => concat (map (yielded ync (stack ++ [r])) ps)
  end.

Definition prepend (l : list (A * list ContainmentMatch))
    (r : exn + list (A * list ContainmentMatch))
    : exn + list (A * list ContainmentMatch) :=
  match r with
  | inl e => inl e
  | inr l' => inr (l ++ l')
  end.

(** No [Conditional] in a node, the conditionals a transitive leaf
    converts to included. *)
Fixpoint conditional_free (n : node A) : bool :=
  match n with
  | Leaf _ => true
  | TransitiveLeaf _ cs => forallb conditional_free cs
  | Group _ rs => forallb conditional_free rs
  | Conditional _ _ _ => false
  end.



(** The leaf [L] is met on a path that goes through no conditional:
    groups are descended through, and a transitive leaf is read as the
    conditionals it converts to. *)
Fixpoint unconditional_leaf (L : A) (n : node A) : bool :=
  match n with
  | Leaf a => bool_decide (a = L)
  | TransitiveLeaf _ cs => existsb (unconditional_leaf L) cs
  | Group _ rs => existsb (unconditional_leaf L) rs
  | Conditional _ _ _ => false
  end.

(** A DepSet whose [_node_conds] is the flag it was built with, or the
    dict a read of [node_conds] stored there. *)
Definition views_consistent (t : DepSet A) : Prop :=
  match _node_conds t with
  | NCBool _ => True
  | NCDict d => d = ∅ ∨ compute_node_conds (restrictions t) = inr d
  end.


End tree_properties.

(** ** Further notions: conditions, flags and the shape of parsed trees *)

Section further_notions.
Context {A : Type} `{Countable A}.

(** The entry [node_conds] appends for a leaf met under the conditions
    [stack]: the restriction itself when there is one, and
    [values.AndRestriction] over all of them otherwise. *)
Definition cond_of (stack : list ContainmentMatch) : cond_restriction :=
  match stack with
  | [r] => Single r
  | _ => values_AndRestriction stack
  end.

(** The entries for the leaf [L] among the pairs of a walk, in the order
    of the walk; a pair with no condition gives no entry. *)
Definition conds_for (L : A) (ys : list (A * list ContainmentMatch))
    : list cond_restriction :=
  omap (λ y : A * list ContainmentMatch,
          if decide (y.1 = L)
          then match y.2 with
               | [] => None
               | _ :: _ => Some (cond_of y.2)
               end
          else None) ys.

(** The flags an entry of [node_conds] names. *)
Definition cond_flags (c : cond_restriction) : gset string :=
  match c with
  | Single r => vals r
  | values_AndRestriction rs => ⋃ (vals <$> rs)
  end.

(** The walk of [find_cond_nodes] meets a leaf in the node. *)
Fixpoint has_leaf (n : node A) : bool :=
  match n with
  | Leaf _ => true
  | TransitiveLeaf _ cs => existsb has_leaf cs
  | Group _ rs => existsb has_leaf rs
  | Conditional _ _ ps => existsb has_leaf ps
  end.

(** The flags of the conditionals of a node that guard a leaf. *)
Fixpoint guard_flags (n : node A) : gset string :=
  match n with
  | Leaf _ => ∅
  | TransitiveLeaf _ cs => ⋃ (map guard_flags cs)
  | Group _ rs => ⋃ (map guard_flags rs)
  | Conditional _ r ps =>
    (if existsb has_leaf ps then vals r else ∅) ∪ ⋃ (map guard_flags ps)
  end.

(** A [Conditional] in the node itself; what a transitive leaf converts
    to is not looked at. *)
Fixpoint holds_conditional (n : node A) : bool :=
  match n with
  | Leaf _ => false
  | TransitiveLeaf _ _ => false
  | Group _ rs => existsb holds_conditional rs
  | Conditional _ _ _ => true
  end.

Definition frames_hold_conditional (depsets : list (list (node A))) : bool :=
  existsb (existsb holds_conditional) depsets.

(** Every group of the node has two children or more. *)
Fixpoint groups_of_two (n : node A) : bool :=
  match n with
  | Leaf _ => true
  | TransitiveLeaf _ _ => true
  | Group _ rs => (2 <=? length rs)%nat && forallb groups_of_two rs
  | Conditional _ _ ps => forallb groups_of_two ps
  end.

(** Every conditional of the node is on the attribute [use] and its
    restriction holds one value. *)
Fixpoint use_conditionals (n : node A) : bool :=
  match n with
  | Leaf _ => true
  | TransitiveLeaf _ _ => true
  | Group _ rs => forallb use_conditionals rs
  | Conditional attr r ps =>
    bool_decide (attr = "use") && bool_decide (size (vals r) = 1%nat)
    && forallb use_conditionals ps
  end.

(** The elements of a node, from left to right. *)
Fixpoint tree_elements (n : node A) : list (element A) :=
  match n with
  | Leaf a => [PlainElement a]
  | TransitiveLeaf a cs => [TransitiveElement a cs]
  | Group _ rs => concat (map tree_elements rs)
  | Conditional _ _ ps => concat (map tree_elements ps)
  end.

(** The elements of the frames of the parser, the outermost frame
    first. *)
Definition frames_elements (depsets : list (list (node A)))
    : list (element A) :=
  concat (map (λ frame, concat (map tree_elements frame)) (reverse depsets)).

(** The words of a token sequence that stand for a leaf. *)
Definition leaf_words (operators : gmap string boolean_cls)
    (words : list string) : list string :=
  filter (λ k, k ≠ ")" ∧ k ≠ "(" ∧ opens_group operators k = false) words.

(** The number of words equal to [k]. *)
Definition count_word (k : string) (words : list string) : nat :=
  length (filter (λ w, w = k) words).

Section render.
Variable func : leaf_obj → string.
Variable σ : A → leaf_obj.

(** The strings [visit] receives for a node when no domain is given, as
    a function of the tree. *)
Fixpoint rendered (n : node A) : list string :=
  match n with
  | Leaf a => [func (σ a)]
  | TransitiveLeaf a _ => [func (σ a)]
  | Group cls rs =>
    match cls with
    | OrRestriction => "|| ("
    | AndRestriction => "("
    end :: concat (map rendered rs) ++ [")"]
  | Conditional _ r ps =>
    match elements (vals r) with
    | [v] =>
      ((if negate r then "!" else "") +:+ v +:+ "? (")
        :: concat (map rendered ps) ++ [")"]
    | _ => []
    end
  end.

(** The token that opens a conditional with the restriction [r]. *)
Definition conditional_token (r : ContainmentMatch) : string :=
  match elements (vals r) with
  | [v] => (if negate r then "!" else "") +:+ v +:+ "?"
  | _ => ""
  end.

(** The tokens of a node. *)
Fixpoint tokens (n : node A) : list string :=
  match n with
  | Leaf a => [func (σ a)]
  | TransitiveLeaf a _ => [func (σ a)]
  | Group cls rs =>
    match cls with
    | OrRestriction => ["||"; "("]
    | AndRestriction => ["("]
    end ++ concat (map tokens rs) ++ [")"]
  | Conditional _ r ps =>
    conditional_token r :: "(" :: concat (map tokens ps) ++ [")"]
  end.

(** The trees the parser can give back from their own text: a leaf is
    shown as a leaf token from which the element function builds that
    leaf, a group has two children or more, and a conditional is on
    [use], has a child, and its token is a word the parser reads back as
    its restriction. *)
Inductive canonical
    (element_func : string → option string → exn + element A)
    : node A → Prop :=
| canonical_leaf a :
    word (func (σ a)) = true → leaf_token (func (σ a)) = true →
    element_func (func (σ a)) None = inr (PlainElement a) →
    canonical element_func (Leaf a)
| canonical_transitive a cs :
    word (func (σ a)) = true → leaf_token (func (σ a)) = true →
    element_func (func (σ a)) None = inr (TransitiveElement a cs) →
    canonical element_func (TransitiveLeaf a cs)
| canonical_group cls rs :
    (2 ≤ length rs)%nat → Forall (canonical element_func) rs →
    canonical element_func (Group cls rs)
| canonical_conditional r ps :
    word (conditional_token r) = true →
    flag_restriction (conditional_token r) = r →
    (1 ≤ length ps)%nat → Forall (canonical element_func) ps →
    canonical element_func (Conditional "use" r ps).

End render.

End further_notions.

(** The calls of the element function a token sequence stands for, from
    left to right: the word and, when file renames are allowed and the
    word is followed by [->], the word after the arrow. *)
Fixpoint leaf_calls (operators : gmap string boolean_cls)
    (allow_src_uri_file_renames : bool) (words : list string)
    {struct words} : list (string * option string) :=
  match words with
  | [] => []
  | k :: words1 =>
    if decide (k = ")") then
      leaf_calls operators allow_src_uri_file_renames words1
    else if decide (k = "(") then
      leaf_calls operators allow_src_uri_file_renames words1
    else if opens_group operators k then
      leaf_calls operators allow_src_uri_file_renames words1
    else if allow_src_uri_file_renames then
      match words1 with
      | k2 :: k3 :: words3 =>
        if decide (k2 = "->")
        then (k, Some k3)
               :: leaf_calls operators allow_src_uri_file_renames words3
        else (k, None)
               :: leaf_calls operators allow_src_uri_file_renames words1
      | _ =>
        (k, None) :: leaf_calls operators allow_src_uri_file_renames words1
      end
    else (k, None) :: leaf_calls operators allow_src_uri_file_renames words1
  end.

(** ** The slot rewrite over a tree *)

Section slot_rewrite_notions.
Context {A : Type} `{Countable A}.







End slot_rewrite_notions.

(** * Lemmas and theorems *)

(** ** The walk of [find_cond_nodes], read off the tree *)

Section yielded.
Context {A : Type}.

Lemma prepend_app (l1 l2 : list (A * list ContainmentMatch)) r :
  prepend (l1 ++ l2) r = prepend l1 (prepend l2 r).
Proof. destruct r; simpl; [done|]. by rewrite app_assoc. Qed.

Lemma find_cond_nodes_loop_children ync stack (cs : list (node A)) rest :
  Forall (λ n, ∀ ync stack rest,
            find_cond_nodes_loop ync stack (Some n :: rest)
            = prepend (yielded ync stack n) (find_cond_nodes_loop ync stack rest)) cs →
  find_cond_nodes_loop ync stack ((Some <$> cs) ++ rest)
  = prepend (concat (map (yielded ync stack) cs))
            (find_cond_nodes_loop ync stack rest).
Proof.
  induction 1 as [|n cs Hn _ IH]; csimpl.
  - by destruct (find_cond_nodes_loop ync stack rest).
  - rewrite Hn, IH. by rewrite prepend_app.
Qed.

Lemma find_cond_nodes_loop_node (n : node A) :
  ∀ ync stack rest,
    find_cond_nodes_loop ync stack (Some n :: rest)
    = prepend (yielded ync stack n) (find_cond_nodes_loop ync stack rest).
Proof.
  induction n as [a|a cs IH|cls rs IH|attr r ps IH] using node_ind';
    intros ync stack rest.
  - rewrite find_cond_nodes_loop_equation_2. simpl.
    destruct (negb (bool_decide (stack = [])) || ync);
      by destruct (find_cond_nodes_loop ync stack rest).
  - rewrite find_cond_nodes_loop_equation_3. simpl.
    by apply find_cond_nodes_loop_children.
  - rewrite find_cond_nodes_loop_equation_4. simpl.
    by apply find_cond_nodes_loop_children.
  - rewrite find_cond_nodes_loop_equation_5. simpl.
    rewrite find_cond_nodes_loop_children by done.
    f_equal. rewrite find_cond_nodes_loop_equation_6.
    destruct (stack ++ [r]) as [|c l] eqn:E.
    + by destruct stack.
    + rewrite <- E. by rewrite removelast_last.
Qed.

(** The walk never pops an empty stack and yields the pairs of [yielded],
    in order. *)
Lemma find_cond_nodes_yielded (restriction_set : list (node A)) ync :
  find_cond_nodes restriction_set ync
  = inr (concat (map (yielded ync []) restriction_set)).
Proof.
  unfold find_cond_nodes.
  rewrite <- (app_nil_r (Some <$> restriction_set)).
  rewrite find_cond_nodes_loop_children.
  - rewrite find_cond_nodes_loop_equation_1. simpl. by rewrite app_nil_r.
  - apply Forall_forall. intros n _. apply find_cond_nodes_loop_node.
Qed.

End yielded.

(** ** [has_conditionals] and [node_conds] *)

Section has_conditionals.
Context {A : Type} `{Countable A}.

Lemma compute_node_conds_total (rs : list (node A)) :
  ∃ d, compute_node_conds rs = inr d.
Proof.
  unfold compute_node_conds. rewrite find_cond_nodes_yielded.
  destruct (foldl node_conds_step _ _) as [nc ar]. eauto.
Qed.

(** C1, as the code has it: reading [node_conds] never fails; once it has
    been read, [has_conditionals] is true exactly when the dict read is
    not empty, and a second read returns the same dict; before the read,
    [has_conditionals] is the flag the DepSet was built with, which is
    true whenever the dict is not empty. Reading [known_conditionals]
    changes neither [_node_conds] nor [has_conditionals]. *)
Theorem has_conditionals_after_node_conds (t : DepSet A) :
  (∃ d t',
     node_conds t = inr (d, t')
     ∧ has_conditionals t' = negb (bool_decide (d = ∅))
     ∧ node_conds t' = inr (d, t')
     ∧ (has_conditionals t = false → d = ∅))
  ∧ (∃ kc t', known_conditionals t = inr (kc, t')
              ∧ _node_conds t' = _node_conds t
              ∧ has_conditionals t' = has_conditionals t).
Proof.
  split.
  - destruct t as [rs ec [[|]|d] kc]; unfold node_conds, has_conditionals; simpl.
    + destruct (compute_node_conds_total rs) as [d ->].
      refine (ex_intro _ _ (ex_intro _ _ (conj eq_refl _))). simpl.
      by repeat split.
    + refine (ex_intro _ _ (ex_intro _ _ (conj eq_refl _))). simpl.
      by repeat split.
    + refine (ex_intro _ _ (ex_intro _ _ (conj eq_refl _))). simpl.
      repeat split.
      intros Hd. apply negb_false_iff in Hd. by apply bool_decide_eq_true in Hd.
  - unfold known_conditionals, has_conditionals.
    rewrite find_cond_nodes_yielded.
    destruct t as [rs ec [[|]|d] [kc|]]; simpl; by eexists _, _.
Qed.

End has_conditionals.

(** C1, as the specification states it, fails before the first read: the DepSet parsed from
    [a/b x? ( a/b )] has [has_conditionals] true and an empty [node_conds]. *)
Lemma has_conditionals_before_read_differs :
  ∃ t t',
    parse_text "a/b x? ( a/b )" = inr t
    ∧ has_conditionals t = true
    ∧ node_conds t = inr (∅, t')
    ∧ has_conditionals t' = false.
Proof.
  exists (DepSet_init [Leaf "a/b"; Conditional "use" (use_flag "x") [Leaf "a/b"]]
                      atom (NCBool true)).
  exists (mkDepSet [Leaf "a/b"; Conditional "use" (use_flag "x") [Leaf "a/b"]]
                   atom (NCDict ∅) None).
  repeat split; vm_compute; reflexivity.
Qed.

(** ** Splitting and joining *)

Section split_join.

Lemma split_go_all_whitespace s cur :
  all_whitespace s = true → PyStr.split_go cur s = option_list cur.
Proof.
  revert cur. induction s as [|c s IH]; intros cur; simpl; [done|].
  unfold all_whitespace. simpl. intros [Hc Hs]%andb_true_iff.
  rewrite Hc. rewrite IH by done. simpl. apply app_nil_r.
Qed.

Lemma split_all_whitespace s : all_whitespace s = true → PyStr.split s = [].
Proof. intros Hs. unfold PyStr.split. by rewrite split_go_all_whitespace. Qed.

End split_join.

(** ** Parsing a blank string *)

Section parse_blank.
Context {A : Type} `{Countable A}.
Variable instantiate : ElementClass → string → option string → exn + element A.

(** C10: a dependency string with no token parses to a DepSet with no
    node and [has_conditionals] false, whatever the other arguments are,
    while the empty group [( )] is a [ParseError]. *)
Theorem parse_blank dep_str element_class operators element_func
    (transitive_use_atoms allow_src_uri_file_renames : bool) :
  all_whitespace dep_str = true →
  (∃ t, parse instantiate dep_str element_class operators element_func
          transitive_use_atoms allow_src_uri_file_renames = inr t
        ∧ restrictions t = []
        ∧ has_conditionals t = false)
  ∧ parse instantiate "( )" element_class operators element_func
      transitive_use_atoms allow_src_uri_file_renames
    = inl (ParseError "( )" (Cause (ParseError "( )" NoToken))).
Proof.
  intros Hs. split; [|reflexivity].
  unfold parse. rewrite split_all_whitespace by done. simpl.
  destruct transitive_use_atoms; simpl; eexists; by repeat split.
Qed.

End parse_blank.

(** C10 on a string of three spaces. *)
Lemma parse_blank_witness :
  (∃ t, parse_text "   " = inr t
        ∧ restrictions t = [] ∧ has_conditionals t = false)
  ∧ parse_text "( )" = inl (ParseError "( )" (Cause (ParseError "( )" NoToken))).
Proof.
  apply (parse_blank text_instantiate "   " atom None None false false).
  reflexivity.
Defined.

(** ** [evaluate_depset] *)

Section evaluate.
Context {A : Type} `{Countable A}.

(** C6: evaluating the result of [evaluate_depset] again returns it as it
    is, whatever [evaluate_conditionals] computes: the result either is
    the DepSet given, whose [has_conditionals] is false, or was built with
    [node_conds=False]. *)
Theorem evaluate_depset_idempotent
    (evaluate_conditionals :
       DepSet A → gset string → option (gset string) → list (node A))
    (t : DepSet A) (cond_dict : gset string)
    (tristate_filter : option (gset string)) :
  evaluate_depset evaluate_conditionals
    (evaluate_depset evaluate_conditionals t cond_dict tristate_filter)
    cond_dict tristate_filter
  = evaluate_depset evaluate_conditionals t cond_dict tristate_filter.
Proof.
  unfold evaluate_depset at 2 3.
  destruct (has_conditionals t) eqn:Ht; simpl.
  - reflexivity.
  - unfold evaluate_depset. by rewrite Ht.
Qed.

Lemma forallb_concat_map (f : node A → list (node A)) (l : list (node A)) :
  Forall (λ n, forallb conditional_free (f n) = true) l →
  forallb conditional_free (concat (map f l)) = true.
Proof.
  induction 1 as [|n l Hn _ IH]; simpl; [done|].
  rewrite forallb_app. by rewrite Hn, IH.
Qed.

Lemma evaluate_node_conditional_free cond_dict tristate_filter (n : node A) :
  forallb conditional_free (evaluate_node cond_dict tristate_filter n) = true.
Proof.
  induction n as [a|a cs IH|cls rs IH|attr r ps IH] using node_ind'; simpl.
  - done.
  - by apply forallb_concat_map.
  - rewrite forallb_concat_map by done. done.
  - destruct (guard_holds r cond_dict tristate_filter); [|done].
    by apply forallb_concat_map.
Qed.

(** C5, as the code has it: when [has_conditionals] is false the DepSet
    itself is returned; when it is true the result is a new DepSet of the
    same element class, built with [node_conds=False], whose nodes are
    those [evaluate_conditionals] appended, and these hold no
    conditional. *)
Theorem evaluate_depset_result (t : DepSet A) (cond_dict : gset string)
    (tristate_filter : option (gset string)) :
  (has_conditionals t = false →
     evaluate_depset spec_evaluate_conditionals t cond_dict tristate_filter = t)
  ∧ (has_conditionals t = true →
     let r := evaluate_depset spec_evaluate_conditionals t cond_dict
                tristate_filter in
     forallb conditional_free (restrictions r) = true
     ∧ element_class r = element_class t
     ∧ _node_conds r = NCBool false
     ∧ has_conditionals r = false).
Proof.
  unfold evaluate_depset. split; intros ->; simpl; [done|].
  repeat split. unfold spec_evaluate_conditionals.
  apply forallb_concat_map, Forall_forall. intros n _.
  apply evaluate_node_conditional_free.
Qed.

End evaluate.

(** C5 on a DepSet without and a DepSet with a conditional. *)
Lemma evaluate_depset_result_witness :
  evaluate_depset spec_evaluate_conditionals
    (DepSet_init [Leaf "a/b"] atom (NCBool false)) {[ "x" ]} None
  = DepSet_init [Leaf "a/b"] atom (NCBool false)
  ∧ let r := evaluate_depset spec_evaluate_conditionals
               (DepSet_init [Conditional "use" (use_flag "x") [Leaf "a/b"]]
                            atom (NCBool true)) {[ "x" ]} None in
    forallb conditional_free (restrictions r) = true
    ∧ element_class r = atom
    ∧ _node_conds r = NCBool false
    ∧ has_conditionals r = false.
Proof.
  split.
  - by apply (proj1 (evaluate_depset_result
                       (DepSet_init [Leaf "a/b"] atom (NCBool false))
                       {[ "x" ]} None)).
  - by apply (proj2 (evaluate_depset_result
                       (DepSet_init [Conditional "use" (use_flag "x") [Leaf "a/b"]]
                                    atom (NCBool true))
                       {[ "x" ]} None)).
Defined.

(** The examples of the specification: [x? ( a/b )] under an environment
    with and without [x]. *)
Example evaluate_depset_examples :
  restrictions
    (evaluate_depset spec_evaluate_conditionals
       (DepSet_init [Conditional "use" (use_flag "x") [Leaf "a/b"]]
                    atom (NCBool true)) {[ "x" ]} None)
  = [Leaf "a/b"]
  ∧ restrictions
      (evaluate_depset spec_evaluate_conditionals
         (DepSet_init [Conditional "use" (use_flag "x") [Leaf "a/b"]]
                      atom (NCBool true)) ∅ None)
    = [].
Proof. split; vm_compute; reflexivity. Qed.

(** C5, as the specification states it, fails: once [node_conds] of the DepSet parsed from
    [a/b x? ( a/b )] has been read and found empty, [evaluate_depset] returns
    that DepSet with its conditional still in it. *)
Lemma evaluate_depset_keeps_conditional :
  ∃ t t',
    parse_text "a/b x? ( a/b )" = inr t
    ∧ node_conds t = inr (∅, t')
    ∧ evaluate_depset spec_evaluate_conditionals t' ∅ None = t'
    ∧ restrictions t' = [Leaf "a/b"; Conditional "use" (use_flag "x") [Leaf "a/b"]]
    ∧ forallb conditional_free (restrictions t') = false.
Proof.
  exists (DepSet_init [Leaf "a/b"; Conditional "use" (use_flag "x") [Leaf "a/b"]]
                      atom (NCBool true)).
  exists (mkDepSet [Leaf "a/b"; Conditional "use" (use_flag "x") [Leaf "a/b"]]
                   atom (NCDict ∅) None).
  repeat split; vm_compute; reflexivity.
Qed.

(** ** The parser: closing a frame *)

Section close_frame.
Context {A : Type}.
Variable dep_str : string.
Variable operators : gmap string boolean_cls.
Variable element_func : string → option string → exn + element A.
Variable allow_src_uri_file_renames : bool.

Abbreviation run := (parse_words dep_str operators element_func
                                 allow_src_uri_file_renames).

Lemma parse_words_close_group (words : list string) (top parent : list (node A))
    rest c raw_conditionals node_conds op :
  operators !! c = Some op → 1 < length top →
  run (")" :: words) (top :: parent :: rest) (c :: raw_conditionals) node_conds
  = run words ((parent ++ [Group op top]) :: rest) raw_conditionals node_conds.
Proof.
  intros Hop Hlen. destruct top as [|x [|y ys]]; simpl in Hlen; [lia..|].
  simpl. by rewrite Hop.
Qed.

Lemma parse_words_close_single (words : list string) (x : node A) parent
    rest c raw_conditionals node_conds op :
  operators !! c = Some op →
  run (")" :: words) ([x] :: parent :: rest) (c :: raw_conditionals) node_conds
  = run words ((parent ++ [x]) :: rest) raw_conditionals node_conds.
Proof. intros Hop. simpl. by rewrite Hop. Qed.

Lemma parse_words_close_conditional (words : list string)
    (top parent : list (node A)) rest c raw_conditionals node_conds :
  operators !! c = None → PyStr.last c = Some "?"%char → 0 < length top →
  run (")" :: words) (top :: parent :: rest) (c :: raw_conditionals) node_conds
  = run words ((parent ++ [Conditional "use" (flag_restriction c) top]) :: rest)
        raw_conditionals true.
Proof.
  intros Hop Hlast Hlen. destruct top as [|x xs]; simpl in Hlen; [lia|].
  simpl. rewrite Hop.
  destruct c as [|c0 c']; [done|]. simpl.
  destruct (decide (c0 = "!"%char)) as [->|Hne]; [done|].
  destruct c0 as [[] [] [] [] [] [] [] []]; try done.
Qed.

(** C2: on [)] the innermost frame [top], opened by the token [c], is
    popped together with its tag. If [c] is an operator key and [top]
    has more than one child, the parent frame receives the operator's
    group over [top]; if [c] is an operator key and [top] has one child,
    the parent receives that child itself; if [c] is a conditional token,
    the parent receives a [Conditional] over [top] however many children
    it has, and the local [node_conds] becomes true. In each case this
    is the state the loop ends in when [)] is the last token, and the
    state from which it goes on with the tokens that follow. *)
Theorem parse_close_frame (words : list string) (top parent : list (node A))
    (rest : list (list (node A))) (c : string) (raw_conditionals : list string)
    (node_conds : bool) :
  (∀ op, operators !! c = Some op → 1 < length top →
     run [")"] (top :: parent :: rest) (c :: raw_conditionals) node_conds
     = inr ((parent ++ [Group op top]) :: rest, raw_conditionals, node_conds)
     ∧ run (")" :: words) (top :: parent :: rest) (c :: raw_conditionals)
           node_conds
       = run words ((parent ++ [Group op top]) :: rest) raw_conditionals
             node_conds)
  ∧ (∀ op x, operators !! c = Some op → top = [x] →
     run [")"] (top :: parent :: rest) (c :: raw_conditionals) node_conds
     = inr ((parent ++ [x]) :: rest, raw_conditionals, node_conds)
     ∧ run (")" :: words) (top :: parent :: rest) (c :: raw_conditionals)
           node_conds
       = run words ((parent ++ [x]) :: rest) raw_conditionals node_conds)
  ∧ (operators !! c = None → PyStr.last c = Some "?"%char → 0 < length top →
     run [")"] (top :: parent :: rest) (c :: raw_conditionals) node_conds
     = inr ((parent ++ [Conditional "use" (flag_restriction c) top]) :: rest,
            raw_conditionals, true)
     ∧ run (")" :: words) (top :: parent :: rest) (c :: raw_conditionals)
           node_conds
       = run words ((parent ++ [Conditional "use" (flag_restriction c) top])
                      :: rest)
             raw_conditionals true).
Proof.
  split; [|split].
  - intros op Hop Hlen. by rewrite !(parse_words_close_group _ _ _ _ _ _ _ op).
  - intros op x Hop ->. by rewrite !(parse_words_close_single _ _ _ _ _ _ _ op).
  - intros Hop Hlast Hlen. by rewrite !parse_words_close_conditional.
Qed.

End close_frame.

(** C2 on three states of the loop: an OR frame of two children, an OR
    frame of one child, and a conditional frame of one child. *)
Lemma parse_close_frame_witness :
  parse_words "s" default_operators text_element false [")"]
              [[Leaf "a"; Leaf "b"]; [Leaf "c"]] ["||"] false
  = inr ([[Leaf "c"; Group OrRestriction [Leaf "a"; Leaf "b"]]], [], false)
  ∧ parse_words "s" default_operators text_element false [")"]
                [[Leaf "a"]; [Leaf "c"]] ["||"] false
    = inr ([[Leaf "c"; Leaf "a"]], [], false)
  ∧ parse_words "s" default_operators text_element false [")"]
                [[Leaf "a"]; [Leaf "c"]] ["!x?"] false
    = inr ([[Leaf "c";
             Conditional "use" (mkContainmentMatch {[ "x" ]} true)
                         [Leaf "a"]]], [], true).
Proof.
  split; [|split].
  - apply (proj1 (parse_close_frame "s" default_operators text_element false
                    [] [Leaf "a"; Leaf "b"] [Leaf "c"] [] "||" [] false)
                 OrRestriction); [reflexivity|simpl; lia].
  - apply (proj1 (proj2 (parse_close_frame "s" default_operators text_element
                           false [] [Leaf "a"] [Leaf "c"] [] "||" [] false))
                 OrRestriction (Leaf "a")); reflexivity.
  - apply (proj2 (proj2 (parse_close_frame "s" default_operators text_element
                           false [] [Leaf "a"] [Leaf "c"] [] "!x?" [] false)));
      [reflexivity|reflexivity|simpl; lia].
Defined.

(** With the default operators: a group of one child collapses to the
    child, for [(] and for [||] alike, and a conditional of one child
    does not. *)
Example parse_single_child_groups :
  parse_text "( a/b )" = inr (DepSet_init [Leaf "a/b"] atom (NCBool false))
  ∧ parse_text "|| ( a/b )" = inr (DepSet_init [Leaf "a/b"] atom (NCBool false))
  ∧ parse_text "|| ( a/b a/c )"
    = inr (DepSet_init [Group OrRestriction [Leaf "a/b"; Leaf "a/c"]] atom
                       (NCBool false))
  ∧ parse_text "!x? ( a/b )"
    = inr (DepSet_init
             [Conditional "use" (mkContainmentMatch {[ "x" ]} true) [Leaf "a/b"]]
             atom (NCBool true)).
Proof. repeat split; vm_compute; reflexivity. Qed.

(** ** The parser: no group or conditional without children *)

Section children_nonempty.
Context {A : Type}.





Variable dep_str : string.
Variable operators : gmap string boolean_cls.
Variable element_func : string → option string → exn + element A.
Variable allow_src_uri_file_renames : bool.


End children_nonempty.

Section parse_children_nonempty.
Context {A : Type} `{Countable A}.
Variable instantiate : ElementClass → string → option string → exn + element A.


End parse_children_nonempty.



(** ** [node_conds]: leaves required under no condition *)

Section exclusion.
Context {A : Type} `{Countable A}.

Lemma elem_of_concat_map {X Y} (f : X → list Y) (l : list X) (x : X) (y : Y) :
  x ∈ l → y ∈ f x → y ∈ concat (map f l).
Proof.
  induction 1 as [x l|x x' l _ IH]; simpl; intros Hy; apply elem_of_app;
    [by left|right; by apply IH].
Qed.

Lemma unconditional_leaf_yielded (L : A) (n : node A) :
  unconditional_leaf L n = true → (L, []) ∈ yielded true [] n.
Proof.
  induction n as [a|a cs IH|cls rs IH|attr r ps IH] using node_ind'; simpl.
  - intros ->%bool_decide_eq_true. set_solver.
  - intros (n & Hn & HL)%existsb_exists. apply list_elem_of_In in Hn.
    rewrite Forall_forall in IH.
    eapply elem_of_concat_map; eauto.
  - intros (n & Hn & HL)%existsb_exists. apply list_elem_of_In in Hn.
    rewrite Forall_forall in IH.
    eapply elem_of_concat_map; eauto.
  - done.
Qed.

Lemma node_conds_step_always_required (L : A) ys :
  ∀ acc, L ∈ acc.2 ∨ (L, []) ∈ ys → L ∈ (foldl node_conds_step acc ys).2.
Proof.
  induction ys as [|[payload rs] ys IH]; intros [nc ar]; simpl.
  - intros [?|?%elem_of_nil]; done.
  - intros [Har|Hin]; apply IH.
    + left. destruct rs as [|? [|]]; simpl; set_solver.
    + apply elem_of_cons in Hin as [Heq|Hin]; [|by right].
      left. simplify_eq. simpl. set_solver.
Qed.

Lemma drop_always_required_lookup (L : A) l :
  ∀ nc : gmap A (list cond_restriction),
    nc !! L = None ∨ L ∈ l → drop_always_required l nc !! L = None.
Proof.
  unfold drop_always_required.
  induction l as [|k l IH]; intros nc; simpl.
  - intros [?|?%elem_of_nil]; done.
  - intros Hor. apply IH.
    destruct (decide (k = L)) as [->|Hne].
    + left. case_decide as Hk; [apply lookup_delete_eq|].
      by apply eq_None_not_Some.
    + destruct Hor as [Hnone|Hin].
      * left. case_decide; [|done]. by rewrite lookup_delete_ne.
      * apply elem_of_cons in Hin as [?|?]; [done|by right].
Qed.

Lemma compute_node_conds_excludes (L : A) (rs : list (node A)) d :
  existsb (unconditional_leaf L) rs = true →
  compute_node_conds rs = inr d → d !! L = None.
Proof.
  intros (n & Hn & HL)%existsb_exists. apply list_elem_of_In in Hn.
  unfold compute_node_conds. rewrite find_cond_nodes_yielded.
  destruct (foldl node_conds_step _ _) as [nc ar] eqn:Hfold.
  intros [= <-]. apply drop_always_required_lookup. right.
  apply elem_of_elements.
  change ar with (nc, ar).2. rewrite <- Hfold.
  apply node_conds_step_always_required. right.
  eapply elem_of_concat_map; [done|]. by apply unconditional_leaf_yielded.
Qed.

(** C4: a leaf met on some path under no conditional is not a key of
    [node_conds], whatever else the tree holds; the read leaves the
    DepSet consistent, so the same holds for every later read. *)
Theorem node_conds_excludes_unconditional (t : DepSet A) (L : A) :
  views_consistent t →
  existsb (unconditional_leaf L) (restrictions t) = true →
  ∃ d t', node_conds t = inr (d, t')
          ∧ d !! L = None
          ∧ restrictions t' = restrictions t
          ∧ views_consistent t'.
Proof.
  destruct t as [rs ec [[|]|d] kc]; unfold views_consistent, node_conds; simpl;
    intros Hcons HL.
  - destruct (compute_node_conds_total rs) as [d Hd]. rewrite Hd.
    refine (ex_intro _ _ (ex_intro _ _ (conj eq_refl _))). simpl.
    split; [by eapply compute_node_conds_excludes|]. by split; [|right].
  - refine (ex_intro _ _ (ex_intro _ _ (conj eq_refl _))). simpl.
    split; [done|]. by split; [|left].
  - refine (ex_intro _ _ (ex_intro _ _ (conj eq_refl _))). simpl.
    split; [|done].
    destruct Hcons as [->|Hd]; [done|]. by eapply compute_node_conds_excludes.
Qed.

(** The DepSets the module builds are consistent: those of [parse] and
    of [evaluate_depset] carry a flag. *)
Lemma parse_views_consistent
    (instantiate : ElementClass → string → option string → exn + element A)
    dep_str element_class operators element_func
    (transitive_use_atoms allow_src_uri_file_renames : bool) (t : DepSet A) :
  parse instantiate dep_str element_class operators element_func
        transitive_use_atoms allow_src_uri_file_renames = inr t →
  views_consistent t.
Proof.
  unfold parse, views_consistent. intros Hparse.
  destruct (parse_words _ _ _ _ _ _ _ _) as [[k e]|[[[|rs [|]] rc] nc]];
    try done.
  by destruct (transitive_use_atoms && negb nc); simplify_eq.
Qed.

Lemma evaluate_depset_views_consistent
    (evaluate_conditionals :
       DepSet A → gset string → option (gset string) → list (node A))
    (t : DepSet A) cond_dict tristate_filter :
  views_consistent t →
  views_consistent (evaluate_depset evaluate_conditionals t cond_dict
                      tristate_filter).
Proof. unfold evaluate_depset. by destruct (has_conditionals t). Qed.

End exclusion.

(** C4 on a DepSet where the leaf [a] is required both with and without
    a condition. *)
Lemma node_conds_excludes_unconditional_witness :
  ∃ d t',
    node_conds (DepSet_init
                  [Leaf "a";
                   Conditional "use" (use_flag "x") [Leaf "a"; Leaf "b"]]
                  atom (NCBool true)) = inr (d, t')
    ∧ d !! "a" = None
    ∧ restrictions t'
      = [Leaf "a"; Conditional "use" (use_flag "x") [Leaf "a"; Leaf "b"]]
    ∧ views_consistent t'.
Proof.
  apply (node_conds_excludes_unconditional
           (DepSet_init
              [Leaf "a"; Conditional "use" (use_flag "x") [Leaf "a"; Leaf "b"]]
              atom (NCBool true)) "a").
  - exact I.
  - reflexivity.
Defined.

(** The other leaf of that DepSet keeps its condition. *)
Example node_conds_keeps_conditional_leaf :
  compute_node_conds
    [Leaf "a"; Conditional "use" (use_flag "x") [Leaf "a"; Leaf "b"]]
  = inr {[ "b" := [Single (use_flag "x")] ]}.
Proof. vm_compute. reflexivity. Qed.

(** ** Stringification and the store of leaf objects *)

Section sorted_max.





End sorted_max.

Section store_effect.
Context {A : Type} `{Countable A}.
Variable domain : option Domain.
Variable func : leaf_obj → string.

Lemma stringify_Group cls (rs : list (node A)) st :
  _internal_stringify_boolean domain func (Group cls rs) st
  = close_group (stringify_each domain func rs
                   (visit (match cls with
                           | OrRestriction => "|| ("
                           | AndRestriction => "("
                           end) st)).
Proof. by destruct cls. Qed.

Lemma stringify_Conditional attr r (ps : list (node A)) st :
  _internal_stringify_boolean domain func (Conditional attr r ps) st
  = match elements (vals r) with
    | [v] =>
      close_group
        (stringify_each domain func ps
           (visit ((if negate r then "!" else "") +:+ v +:+ "? (") st))
    | _ => (Some AssertionError, st)
    end.
Proof. reflexivity. Qed.




End store_effect.

Section slot_rewrite.
Context {A : Type} `{Countable A}.


End slot_rewrite.

Example slotdep_str_run :
  let t : DepSet nat :=
    DepSet_init [Group OrRestriction [Leaf 1; Leaf 2]] atom (NCBool false) in
  (stringify_boolean (inl t) show_leaf (Some example_domain) example_store).1
  = inr "|| ( dev-libs/foo::3/3.0= dev-libs/bar )"
  ∧ (stringify_boolean (inl t) show_leaf None example_store).1
    = inr "|| ( dev-libs/foo:= dev-libs/bar )".
Proof. split; vm_compute; reflexivity. Qed.

(** ** Canonically spaced strings *)

Section words.

Lemma string_app_cons (c : ascii) (s t : string) :
  String c s +:+ t = String c (s +:+ t).
Proof. reflexivity. Qed.

Lemma string_app_assoc (s1 s2 s3 : string) :
  (s1 +:+ s2) +:+ s3 = s1 +:+ s2 +:+ s3.
Proof.
  induction s1 as [|c s1 IH]; [done|]. by rewrite !string_app_cons, IH.
Qed.

Lemma string_app_nil_r (s : string) : s +:+ "" = s.
Proof. induction s as [|c s IH]; [done|]. by rewrite string_app_cons, IH. Qed.

Lemma string_app_length (s1 s2 : string) :
  String.length (s1 +:+ s2) = (String.length s1 + String.length s2)%nat.
Proof.
  induction s1 as [|c s1 IH]; [done|]. rewrite string_app_cons. simpl.
  by rewrite IH.
Qed.

Lemma string_app_inv_tail (s1 s2 t : string) :
  s1 +:+ t = s2 +:+ t → s1 = s2.
Proof.
  revert s2. induction s1 as [|c s1 IH]; intros [|d s2];
    rewrite ?string_app_cons; intros Heq.
  - done.
  - apply (f_equal String.length) in Heq.
    change ("" +:+ t) with t in Heq. simpl in Heq.
    rewrite string_app_length in Heq. lia.
  - apply (f_equal String.length) in Heq.
    change ("" +:+ t) with t in Heq. simpl in Heq.
    rewrite string_app_length in Heq. lia.
  - injection Heq as -> Heq. f_equal. by apply IH.
Qed.

Lemma init_last (s : string) (c : ascii) :
  PyStr.last s = Some c → PyStr.init s +:+ String c "" = s.
Proof.
  induction s as [|d s IH]; [done|].
  destruct s as [|e s]; [by intros [= ->]|].
  intros Hlast. change (PyStr.init (String d (String e s)))
    with (String d (PyStr.init (String e s))).
  rewrite string_app_cons. f_equal. by apply IH.
Qed.

Lemma join_sep_app (l1 l2 : list string) :
  join_sep (l1 ++ l2) = join_sep l1 +:+ join_sep l2.
Proof.
  induction l1 as [|x l1 IH]; [done|].
  change (join_sep ((x :: l1) ++ l2)) with (x +:+ " " +:+ join_sep (l1 ++ l2)).
  change (join_sep (x :: l1)) with (x +:+ " " +:+ join_sep l1).
  by rewrite IH, !string_app_assoc.
Qed.

Lemma join_sep_join (l : list string) :
  l ≠ [] → join_sep l = PyStr.join " " l +:+ " ".
Proof.
  induction l as [|x [|y l] IH]; [done| |]; intros _.
  - change (x +:+ " " +:+ "" = x +:+ " "). by rewrite string_app_nil_r.
  - change (join_sep (x :: y :: l)) with (x +:+ " " +:+ join_sep (y :: l)).
    change (PyStr.join " " (x :: y :: l))
      with (x +:+ " " +:+ PyStr.join " " (y :: l)).
    rewrite IH by done. by rewrite !string_app_assoc.
Qed.

(** Lists with the same text when every item is followed by a separator
    have the same text when joined. *)
Lemma join_sep_inj (l1 l2 : list string) :
  (l1 = [] ↔ l2 = []) → join_sep l1 = join_sep l2 →
  PyStr.join " " l1 = PyStr.join " " l2.
Proof.
  intros Hnil Heq. destruct l1 as [|x l1].
  - destruct Hnil as [-> _]; done.
  - assert (l2 ≠ []) by (intros Hl2; by apply Hnil in Hl2).
    rewrite !join_sep_join in Heq by done.
    by apply string_app_inv_tail in Heq.
Qed.

Lemma split_go_word (w s : string) :
  ∀ cur, PyStr.no_whitespace w = true → w ≠ "" →
    PyStr.split_go cur (w +:+ s)
    = PyStr.split_go (Some (default "" cur +:+ w)) s.
Proof.
  induction w as [|c w IH]; intros cur Hw Hne; [done|].
  unfold PyStr.no_whitespace in Hw. simpl in Hw.
  apply andb_true_iff in Hw as [Hc Hw]. apply negb_true_iff in Hc.
  simpl. rewrite Hc. destruct w as [|d w].
  - simpl. destruct cur; simpl; [done|done].
  - rewrite IH by done. f_equal. f_equal. destruct cur as [w0|]; simpl.
    + by rewrite string_app_assoc.
    + done.
Qed.

Lemma split_go_space (w s : string) :
  PyStr.split_go (Some w) (" " +:+ s) = w :: PyStr.split_go None s.
Proof. reflexivity. Qed.

Lemma split_join (toks : list string) :
  Forall (λ k, word k = true) toks →
  PyStr.split (PyStr.join " " toks) = toks.
Proof.
  unfold PyStr.split. induction 1 as [|x toks Hx Htoks IH]; [done|].
  apply andb_true_iff in Hx as [Hne Hx].
  apply negb_true_iff, bool_decide_eq_false in Hne.
  destruct toks as [|y toks].
  - simpl. rewrite <- (string_app_nil_r x) at 1.
    rewrite split_go_word by done. done.
  - change (PyStr.join " " (x :: y :: toks))
      with (x +:+ " " +:+ PyStr.join " " (y :: toks)).
    rewrite split_go_word by done. rewrite split_go_space. by rewrite IH.
Qed.

End words.

(** ** Round trip: parsing a canonical string and stringifying it *)

Section round_trip.
Context {A : Type} `{Countable A}.
Variable dep_str : string.
Variable element_func : string → option string → exn + element A.
Variable func : leaf_obj → string.
Variable σ : A → leaf_obj.

Abbreviation run_default :=
  (parse_words dep_str default_operators element_func false).

Lemma default_operators_None (k : string) :
  k ≠ "||" → k ≠ "" → default_operators !! k = None.
Proof.
  intros Hor Hand. unfold default_operators.
  rewrite lookup_insert_ne by done. by rewrite lookup_singleton_ne.
Qed.

Lemma last_nonempty (k : string) : k ≠ "" → is_Some (PyStr.last k).
Proof.
  induction k as [|c k IH]; [done|]. intros _. destruct k; [by eexists|].
  by apply IH.
Qed.

Lemma depset_items_words n toks :
  depset_items n toks → Forall (λ k, word k = true) toks.
Proof.
  induction 1; repeat first [ done | apply Forall_cons; split
                            | apply Forall_app; split ].
Qed.

Lemma parse_words_leaf k words (top : list (node A)) below rc nc x :
  word k = true → leaf_token k = true → element_func k None = inr x →
  run_default (k :: words) (top :: below) rc nc
  = run_default words ((top ++ [node_of_element x]) :: below) rc nc.
Proof.
  intros [Hne _]%andb_true_iff Hleaf Hx.
  apply negb_true_iff, bool_decide_eq_false in Hne.
  unfold leaf_token in Hleaf.
  apply andb_true_iff in Hleaf as [Hleaf Hbar].
  apply andb_true_iff in Hleaf as [Hleaf Hcond].
  apply andb_true_iff in Hleaf as [Hclose Hopen].
  apply negb_true_iff in Hbar.
  apply negb_true_iff, bool_decide_eq_false in Hcond, Hclose, Hopen.
  simpl. rewrite !decide_False by done.
  destruct (last_nonempty k Hne) as [kl Hkl]. rewrite Hkl.
  rewrite bool_decide_eq_false_2 by congruence.
  rewrite default_operators_None; [|by intros ->|done].
  rewrite bool_decide_eq_false_2 by (by intros [??]).
  simpl. by rewrite Hbar, Hx.
Qed.

Lemma parse_words_open words (depsets : list (list (node A))) rc nc :
  run_default ("(" :: words) depsets rc nc
  = run_default words ([] :: depsets) ("" :: rc) nc.
Proof. reflexivity. Qed.

Lemma parse_words_open_or words (depsets : list (list (node A))) rc nc :
  run_default ("||" :: "(" :: words) depsets rc nc
  = run_default words ([] :: depsets) ("||" :: rc) nc.
Proof. reflexivity. Qed.

Lemma parse_words_open_conditional c words (depsets : list (list (node A)))
    rc nc :
  PyStr.last c = Some "?"%char →
  run_default (c :: "(" :: words) depsets rc nc
  = run_default words ([] :: depsets) (c :: rc) nc.
Proof.
  intros Hlast. simpl.
  rewrite !decide_False by (by intros ->). by rewrite Hlast.
Qed.

Lemma conditional_token_not_operator c :
  PyStr.last c = Some "?"%char → default_operators !! c = None.
Proof. intros Hlast. apply default_operators_None; by intros ->. Qed.

Lemma flag_restriction_text c :
  PyStr.last c = Some "?"%char →
  ∃ v, elements (vals (flag_restriction c)) = [v]
       ∧ (if negate (flag_restriction c) then "!" else "") +:+ v +:+ "? ("
         = c +:+ " (".
Proof.
  intros Hlast. destruct c as [|c0 c']; [done|].
  assert (Hcases : (c0 = "!"%char ∧ PyStr.last c' = Some "?"%char
                    ∧ flag_restriction (String c0 c')
                      = mkContainmentMatch {[ PyStr.init c' ]} true)
                   ∨ flag_restriction (String c0 c')
                     = mkContainmentMatch {[ PyStr.init (String c0 c') ]} false).
  { destruct (decide (c0 = "!"%char)) as [->|Hne].
    - left. repeat split. by destruct c'.
    - right. by destruct c0 as [[] [] [] [] [] [] [] []]. }
  destruct Hcases as [(-> & Hlast' & ->) | ->]; simpl.
  - exists (PyStr.init c'). split; [apply elements_singleton|].
    change "? (" with ("?" +:+ " (").
    rewrite <- (string_app_assoc (PyStr.init c')).
    by rewrite (init_last _ _ Hlast').
  - exists (PyStr.init (String c0 c')). split; [apply elements_singleton|].
    change "? (" with ("?" +:+ " (").
    change ("" +:+ ?s) with s.
    rewrite <- (string_app_assoc (PyStr.init (String c0 c'))).
    by rewrite (init_last _ _ Hlast).
Qed.

Lemma join_sep_cons (x : string) (l : list string) :
  join_sep (x :: l) = x +:+ " " +:+ join_sep l.
Proof. reflexivity. Qed.

Lemma stringify_leaf_element (x : element A) st :
  _internal_stringify_boolean None func (node_of_element x) st
  = (None, visit (func (st.1 (element_name x))) st).
Proof. by destruct x. Qed.

Lemma stringify_each_cons (n : node A) ns st :
  stringify_each None func (n :: ns) st
  = match _internal_stringify_boolean None func n st with
    | (None, st') => stringify_each None func ns st'
    | raised => raised
    end.
Proof. reflexivity. Qed.

(** The parser turns a sequence of [n] items into [n] nodes appended to
    the innermost frame, and the stringifier visits, for these nodes, the
    text of the sequence. *)
Lemma parse_words_items n toks :
  depset_items n toks → leaves_render element_func func σ toks →
  ∃ (nodes : list (node A)) (visited : list string),
    length nodes = n
    ∧ (visited = [] ↔ toks = [])
    ∧ join_sep visited = join_sep toks
    ∧ (∀ l, stringify_each None func nodes (σ, l) = (None, (σ, l ++ visited)))
    ∧ ∀ rest top below rc nc, ∃ nc',
        run_default (toks ++ rest) (top :: below) rc nc
        = run_default rest ((top ++ nodes) :: below) rc nc'.
Proof.
  induction 1 as [|k n toks Hword Hleaf _ IH
                  |m inner n toks Hm _ IHin _ IH
                  |m inner n toks Hm _ IHin _ IH
                  |c m inner n toks Hword Hlast Hm _ IHin _ IH]; intros Hrender.
  - exists [], []. repeat split; try done.
    + intros l. simpl. by rewrite app_nil_r.
    + intros rest top below rc nc. exists nc. by rewrite app_nil_r.
  - destruct (Hrender k) as (x & Hx & Hfunc); [set_solver|done|].
    destruct IH as (nodes & visited & Hlen & _ & Hjoin & Hstr & Hrun).
    { intros k' Hk'. apply Hrender. set_solver. }
    exists (node_of_element x :: nodes), (k :: visited).
    split; [by rewrite <- Hlen|]. split; [done|].
    split; [by rewrite !join_sep_cons, Hjoin|]. split.
    + intros l. simpl. rewrite stringify_leaf_element. simpl. rewrite Hfunc.
      unfold visit. simpl. rewrite Hstr. by rewrite <- app_assoc.
    + intros rest top below rc nc.
      destruct (Hrun rest (top ++ [node_of_element x]) below rc nc) as [nc' Hnc'].
      exists nc'. change ((k :: toks) ++ rest) with (k :: toks ++ rest).
      rewrite (parse_words_leaf k _ _ _ _ _ x) by done.
      rewrite Hnc'. by rewrite <- app_assoc.
  - destruct IHin as (nodes_in & visited_in & Hlen_in & _ & Hjoin_in & Hstr_in & Hrun_in).
    { intros k' Hk'. apply Hrender. set_solver. }
    destruct IH as (nodes & visited & Hlen & _ & Hjoin & Hstr & Hrun).
    { intros k' Hk'. apply Hrender. set_solver. }
    exists (Group AndRestriction nodes_in :: nodes),
           ("(" :: visited_in ++ ")" :: visited).
    split; [by rewrite <- Hlen|]. split; [done|]. split.
    { rewrite !join_sep_cons, !join_sep_app, !join_sep_cons.
      by rewrite Hjoin, Hjoin_in. }
    split.
    + intros l. rewrite stringify_each_cons, stringify_Group.
      unfold visit at 1. simpl fst. simpl snd. rewrite Hstr_in.
      unfold close_group, visit. simpl. rewrite Hstr.
      by rewrite <- !app_assoc.
    + intros rest top below rc nc.
      destruct (Hrun_in (")" :: toks ++ rest) [] (top :: below) ("" :: rc) nc)
        as [nc1 Hnc1].
      destruct (Hrun rest (top ++ [Group AndRestriction nodes_in]) below rc nc1)
        as [nc' Hnc'].
      exists nc'.
      change (("(" :: inner ++ ")" :: toks) ++ rest)
        with ("(" :: (inner ++ ")" :: toks) ++ rest).
      rewrite <- app_assoc. rewrite parse_words_open.
      change ((")" :: toks) ++ rest) with (")" :: toks ++ rest).
      rewrite Hnc1. change ([] ++ nodes_in) with nodes_in.
      rewrite parse_words_close_group with (op := AndRestriction);
        [|done|lia].
      rewrite Hnc'. by rewrite <- app_assoc.
  - destruct IHin as (nodes_in & visited_in & Hlen_in & _ & Hjoin_in & Hstr_in & Hrun_in).
    { intros k' Hk'. apply Hrender. set_solver. }
    destruct IH as (nodes & visited & Hlen & _ & Hjoin & Hstr & Hrun).
    { intros k' Hk'. apply Hrender. set_solver. }
    exists (Group OrRestriction nodes_in :: nodes),
           ("|| (" :: visited_in ++ ")" :: visited).
    split; [by rewrite <- Hlen|]. split; [done|]. split.
    { rewrite !join_sep_cons, !join_sep_app, !join_sep_cons.
      by rewrite Hjoin, Hjoin_in. }
    split.
    + intros l. rewrite stringify_each_cons, stringify_Group.
      unfold visit at 1. simpl fst. simpl snd. rewrite Hstr_in.
      unfold close_group, visit. simpl. rewrite Hstr.
      by rewrite <- !app_assoc.
    + intros rest top below rc nc.
      destruct (Hrun_in (")" :: toks ++ rest) [] (top :: below) ("||" :: rc) nc)
        as [nc1 Hnc1].
      destruct (Hrun rest (top ++ [Group OrRestriction nodes_in]) below rc nc1)
        as [nc' Hnc'].
      exists nc'.
      change (("||" :: "(" :: inner ++ ")" :: toks) ++ rest)
        with ("||" :: "(" :: (inner ++ ")" :: toks) ++ rest).
      rewrite <- app_assoc. rewrite parse_words_open_or.
      change ((")" :: toks) ++ rest) with (")" :: toks ++ rest).
      rewrite Hnc1. change ([] ++ nodes_in) with nodes_in.
      rewrite parse_words_close_group with (op := OrRestriction);
        [|done|lia].
      rewrite Hnc'. by rewrite <- app_assoc.
  - destruct IHin as (nodes_in & visited_in & Hlen_in & _ & Hjoin_in & Hstr_in & Hrun_in).
    { intros k' Hk'. apply Hrender. set_solver. }
    destruct IH as (nodes & visited & Hlen & _ & Hjoin & Hstr & Hrun).
    { intros k' Hk'. apply Hrender. set_solver. }
    destruct (flag_restriction_text c Hlast) as (v & Hv & Htext).
    exists (Conditional "use" (flag_restriction c) nodes_in :: nodes),
           ((c +:+ " (") :: visited_in ++ ")" :: visited).
    split; [by rewrite <- Hlen|]. split; [done|]. split.
    { rewrite !join_sep_cons, !join_sep_app, !join_sep_cons.
      rewrite Hjoin, Hjoin_in. by rewrite string_app_assoc. }
    split.
    + intros l. rewrite stringify_each_cons, stringify_Conditional.
      rewrite Hv, Htext.
      unfold visit at 1. simpl fst. simpl snd. rewrite Hstr_in.
      unfold close_group, visit. simpl. rewrite Hstr.
      by rewrite <- !app_assoc.
    + intros rest top below rc nc.
      destruct (Hrun_in (")" :: toks ++ rest) [] (top :: below) (c :: rc) nc)
        as [nc1 Hnc1].
      destruct (Hrun rest
                  (top ++ [Conditional "use" (flag_restriction c) nodes_in])
                  below rc true) as [nc' Hnc'].
      exists nc'.
      change ((c :: "(" :: inner ++ ")" :: toks) ++ rest)
        with (c :: "(" :: (inner ++ ")" :: toks) ++ rest).
      rewrite <- app_assoc. rewrite parse_words_open_conditional by done.
      change ((")" :: toks) ++ rest) with (")" :: toks ++ rest).
      rewrite Hnc1. change ([] ++ nodes_in) with nodes_in.
      rewrite parse_words_close_conditional;
        [|by apply conditional_token_not_operator|done|lia].
      rewrite Hnc'. by rewrite <- app_assoc.
Qed.

End round_trip.

Section parse_stringify.
Context {A : Type} `{Countable A}.
Variable instantiate : ElementClass → string → option string → exn + element A.

(** C7: a string whose words, separated by single spaces, form a token
    sequence of the grammar with no group of a single child, and whose
    leaf tokens the element function accepts and [func] renders back,
    parses to a DepSet that stringifies to the same string, and the
    stringifier changes no leaf. Parsing is with the default operators
    and without file renames. *)
Theorem parse_stringify_round_trip (n : nat) (toks : list string)
    element_class element_func (transitive_use_atoms : bool)
    (func : leaf_obj → string) (σ : A → leaf_obj) :
  depset_items n toks →
  leaves_render (default (instantiate element_class) element_func) func σ toks →
  ∃ t, parse instantiate (PyStr.join " " toks) element_class None element_func
             transitive_use_atoms false = inr t
       ∧ stringify_boolean (inl t) func None σ
         = (inr (PyStr.join " " toks), σ).
Proof.
  intros Hitems Hrender. unfold parse.
  rewrite split_join by (by eapply depset_items_words).
  destruct (parse_words_items (PyStr.join " " toks) _ func σ n toks Hitems Hrender)
    as (nodes & visited & _ & Hnil & Hjoin & Hstr & Hrun).
  destruct (Hrun [] [] [] [] false) as [nc' Hnc']. rewrite app_nil_r in Hnc'.
  simpl default. rewrite Hnc'. simpl.
  assert (Hs : ∀ ec flag,
    stringify_boolean (inl (DepSet_init nodes ec flag)) func None σ
    = (inr (PyStr.join " " toks), σ)).
  { intros ec flag. unfold stringify_boolean. simpl. rewrite Hstr. simpl.
    f_equal. f_equal. by apply join_sep_inj. }
  destruct (transitive_use_atoms && negb nc'); eexists; split; done.
Qed.

End parse_stringify.

(** C7 on [x? ( a/b || ( c/d !y? ( e/f ) ) ) g/h]. *)
Lemma parse_stringify_round_trip_witness :
  let toks := ["x?"; "("; "a/b"; "||"; "("; "c/d"; "!y?"; "("; "e/f"; ")"; ")";
               ")"; "g/h"] in
  ∃ t, parse text_instantiate (PyStr.join " " toks) atom None None false false
       = inr t
       ∧ stringify_boolean (inl t) show_leaf None (λ a, OtherObj a)
         = (inr (PyStr.join " " toks), λ a, OtherObj a).
Proof.
  apply (parse_stringify_round_trip text_instantiate 2).
  - apply (items_cond "x?" 2 ["a/b"; "||"; "("; "c/d"; "!y?"; "("; "e/f"; ")"; ")"]
             1 ["g/h"]); [done|done|lia| |].
    + apply items_leaf; [done|done|].
      apply (items_or 2 ["c/d"; "!y?"; "("; "e/f"; ")"] 0 []); [lia| |].
      * apply items_leaf; [done|done|].
        apply (items_cond "!y?" 1 ["e/f"] 0 []); [done|done|lia| |].
        -- apply items_leaf; [done|done|]. apply items_nil.
        -- apply items_nil.
      * apply items_nil.
    + apply items_leaf; [done|done|]. apply items_nil.
  - intros k Hk Hleaf.
    repeat (apply elem_of_cons in Hk as [->|Hk]);
      try discriminate Hleaf; try (by apply elem_of_nil in Hk);
      eexists; split; reflexivity.
Defined.

(** ** When [parse] raises *)

Section parse_raises.
Context {A : Type}.
Variable dep_str : string.
Variable operators : gmap string boolean_cls.
Variable element_func : string → option string → exn + element A.
Variable allow_src_uri_file_renames : bool.

Lemma is_nil_snoc {X} (l : list X) x : false = is_nil (l ++ [x]).
Proof. by destruct l. Qed.

Lemma first_None (c : string) : PyStr.first c = None ↔ c = "".
Proof. by destruct c. Qed.

Lemma scan_agrees_leaf k rename continue
    (next : element A → (string * exn) + frames A) :
  (∀ x, element_func k rename = inr x → scan_agrees dep_str continue (finish dep_str (next x))) →
  scan_agrees dep_str (scan_leaf element_func k rename continue)
    (finish dep_str match element_func k rename with
            | inl e => raise k e
            | inr x => next x
            end).
Proof.
  unfold scan_leaf. intros Hnext.
  destruct (element_func k rename) as [e|x]; [done|]. by apply Hnext.
Qed.

(** The loop of [parse] and [spec_scan] agree on every sequence of
    non-empty tokens: the loop fails exactly where [spec_scan] finds a
    failure, with the
    exception [raised] gives for it. *)
Lemma parse_words_scan (n : nat) :
  ∀ (words : list string) (top : list (node A)) below rc nc empty,
    (length words ≤ n)%nat → Forall (λ k, k ≠ "") words →
    empty = is_nil top → length below = length rc →
    scan_agrees dep_str
      (spec_scan operators element_func allow_src_uri_file_renames words rc empty)
      (finish dep_str (parse_words dep_str operators element_func
                           allow_src_uri_file_renames words (top :: below) rc nc)).
Proof.
  induction n as [|n IH]; intros words top below rc nc empty Hlen Hne Hempty Hbal;
    destruct words as [|k words1]; simpl in Hlen; try lia.
  - simpl. destruct rc, below; simpl in *; try done; by eexists _, _.
  - simpl. destruct rc, below; simpl in *; try done; by eexists _, _.
  - apply Forall_cons in Hne as [Hk Hne]. simpl.
    destruct (decide (k = ")")) as [->|Hclose].
    { destruct top as [|x xs]; subst empty; simpl.
      - by destruct rc.
      - destruct rc as [|c rc']; [done|].
        destruct below as [|parent rest]; [simpl in Hbal; lia|].
        simpl in Hbal.
        destruct (operators !! c) as [op|] eqn:Hop.
        + rewrite bool_decide_eq_true_2 by eauto. simpl.
          destruct xs; apply IH; try done; try lia; apply is_nil_snoc.
        + rewrite bool_decide_eq_false_2 by (by intros [??]). simpl.
          destruct (PyStr.first c) as [c0|] eqn:Hfirst.
          * rewrite bool_decide_eq_false_2 by (by intros ->). simpl.
            apply IH; try done; try lia; apply is_nil_snoc.
          * apply first_None in Hfirst as ->. done. }
    destruct (decide (k = "(")) as [->|Hopen].
    { apply IH; simpl; try done; lia. }
    destruct (last_nonempty k Hk) as [kl Hkl]. rewrite Hkl.
    unfold opens_group. rewrite Hkl.
    rewrite (bool_decide_ext (Some kl = Some "?"%char) (kl = "?"%char))
      by naive_solver.
    destruct (bool_decide (kl = "?"%char)
              || bool_decide (is_Some (operators !! k))).
    { destruct words1 as [|k2 words2]; [done|].
      apply Forall_cons in Hne as [_ Hne]. simpl in Hlen.
      destruct (decide (k2 = "(")); [|done].
      apply IH; simpl; try done; lia. }
    destruct (PyStr.contains "|"%char k); [done|].
    destruct allow_src_uri_file_renames.
    { destruct words1 as [|k2 words2].
      - apply (scan_agrees_leaf k None _ (λ x, _)). intros x _.
        apply IH; simpl; try done; try lia; apply is_nil_snoc.
      - destruct (decide (k2 = "->")).
        + destruct words2 as [|k3 words3]; [done|].
          apply Forall_cons in Hne as [_ [_ Hne]%Forall_cons]. simpl in Hlen.
          apply (scan_agrees_leaf k (Some k3) _ (λ x, _)). intros x _.
          apply IH; simpl; try done; try lia; apply is_nil_snoc.
        + simpl in Hlen.
          apply (scan_agrees_leaf k None _ (λ x, _)). intros x _.
          apply IH; simpl; try done; try lia; apply is_nil_snoc. }
    apply (scan_agrees_leaf k None _ (λ x, _)). intros x _.
    apply IH; simpl; try done; try lia; apply is_nil_snoc.
Qed.

End parse_raises.

Lemma split_go_nonempty (s : string) :
  ∀ cur, (∀ w, cur = Some w → w ≠ "") →
    Forall (λ k, k ≠ "") (PyStr.split_go cur s).
Proof.
  induction s as [|c s IH]; intros cur Hcur; simpl.
  - destruct cur as [w|]; [|done]. apply Forall_cons. split; [by apply Hcur|done].
  - destruct (PyStr.is_whitespace c).
    + apply Forall_app. split; [|by apply IH].
      destruct cur as [w|]; [|done]. apply Forall_cons. split; [by apply Hcur|done].
    + apply IH. intros w [= <-]. destruct cur as [[|d w0]|]; done.
Qed.

Lemma split_nonempty (s : string) : Forall (λ k, k ≠ "") (PyStr.split s).
Proof. by apply split_go_nonempty. Qed.

Section parse_failures.
Context {A : Type} `{Countable A}.
Variable instantiate : ElementClass → string → option string → exn + element A.

Lemma parse_finish dep_str element_class operators element_func
    (transitive_use_atoms allow_src_uri_file_renames : bool) :
  parse instantiate dep_str element_class operators element_func
        transitive_use_atoms allow_src_uri_file_renames
  = match finish dep_str
            (parse_words dep_str (default default_operators operators)
               (default (instantiate element_class) element_func)
               allow_src_uri_file_renames (PyStr.split dep_str) [[]] [] false) with
    | inl e => inl e
    | inr (restrictions, node_conds) =>
      if transitive_use_atoms && negb node_conds then
        inr (DepSet_init restrictions transitive_use_atom
               (NCBool (_has_transitive_use_atoms restrictions)))
      else inr (DepSet_init restrictions element_class (NCBool node_conds))
    end.
Proof.
  unfold parse, finish.
  destruct (parse_words _ _ _ _ _ _ _ _) as [[k e]|[[[|rs [|]] rc] nc]]; done.
Qed.

(** C3, as the code has it: [parse] raises [e] exactly when the tokens of
    the string have a first failure [f] and [e] is the exception of [f].
    That exception is a [ParseError] for an empty or unmatched [)], an
    operator or conditional token not followed by [(], a token with a
    [|] in it that is no operator, frames left open at the end, a [->]
    that ends the tokens when file renames are allowed, and a failure of
    the element function; except that an [IndexError] or a member of
    [IGNORED_EXCEPTIONS] raised by the element function, and the
    [IndexError] of closing a bare group under an operator map without
    the empty key, are raised as they are. The failure of the element
    function is the cause of the [ParseError], unless it is a
    [StopIteration], for which the [ParseError] names the token. *)
Theorem parse_raises dep_str element_class operators element_func
    (transitive_use_atoms allow_src_uri_file_renames : bool) :
  (∀ e, parse instantiate dep_str element_class operators element_func
              transitive_use_atoms allow_src_uri_file_renames = inl e
        ↔ ∃ f, spec_scan (default default_operators operators)
                    (default (instantiate element_class) element_func)
                    allow_src_uri_file_renames (PyStr.split dep_str) [] true
               = Some f
               ∧ e = raised dep_str f)
  ∧ (∀ f, is_ParseError (raised dep_str f) = negb (propagates f))
  ∧ (∀ k e, raised dep_str (LeafFailure k e)
            = match e with
              | IndexError | IgnoredException _ => e
              | StopIteration => ParseError dep_str (Token k)
              | _ => ParseError dep_str (Cause e)
              end).
Proof.
  split; [|split].
  - intros e. rewrite parse_finish.
    pose proof (parse_words_scan dep_str (default default_operators operators)
                  (default (instantiate element_class) element_func)
                  allow_src_uri_file_renames
                  (length (PyStr.split dep_str)) (PyStr.split dep_str)
                  [] [] [] false true) as Hscan.
    specialize (Hscan ltac:(done) (split_nonempty dep_str) eq_refl eq_refl).
    unfold scan_agrees in Hscan.
    destruct (spec_scan _ _ _ _ _ _) as [f|].
    + rewrite Hscan. split.
      * intros [= <-]. by exists f.
      * by intros (f' & [= <-] & ->).
    + destruct Hscan as (rs & nc & ->). split.
      * by destruct (transitive_use_atoms && negb nc).
      * by intros (f & ? & _).
  - intros [| k [k2|] | k | k [] | | k |]; done.
  - by intros k [].
Qed.

End parse_failures.

(** C3, as the specification states it, fails on both sides. A failure of the element function
    is not always wrapped in a [ParseError]: an [IndexError] and a member
    of [IGNORED_EXCEPTIONS] are raised as they are, and a [StopIteration]
    is replaced by the token. And with file renames allowed, a [->]
    ending the string is a [ParseError] that is none of the six cases:
    the element function accepts the token before it. *)
Lemma parse_leaf_failure_not_wrapped :
  parse (A := string) (λ _ _ _, inl IndexError) "a" atom None None false false
  = inl IndexError
  ∧ is_ParseError IndexError = false
  ∧ parse (A := string) (λ _ _ _, inl (IgnoredException "KeyboardInterrupt"))
          "a" atom None None false false
    = inl (IgnoredException "KeyboardInterrupt")
  ∧ is_ParseError (IgnoredException "KeyboardInterrupt") = false
  ∧ parse (A := string) (λ _ _ _, inl StopIteration) "a" atom None None
          false false
    = inl (ParseError "a" (Token "a"))
  ∧ parse text_instantiate "a ->" atom None None false true
    = inl (ParseError "a ->" (Token "a"))
  ∧ text_element "a" None = inr (PlainElement "a").
Proof. repeat split. Qed.

(** The failures section 7 of the specification lists, with the default
    operators. *)
Example parse_error_cases :
  parse_text "a/b )" = inl (ParseError "a/b )" (Cause (ParseError "a/b )" NoToken)))
  ∧ parse_text "( )" = inl (ParseError "( )" (Cause (ParseError "( )" NoToken)))
  ∧ parse_text "x? a/b"
    = inl (ParseError "x? a/b" (Cause (ParseError "x? a/b" (Token "a/b"))))
  ∧ parse_text "||" = inl (ParseError "||" (Token "||"))
  ∧ parse_text "a|b" = inl (ParseError "a|b" (Cause (ParseError "a|b" (Token "a|b"))))
  ∧ parse_text "( a/b" = inl (ParseError "( a/b" NoToken)
  ∧ parse_text "bad"
    = inl (ParseError "bad" (Cause (OtherException "MalformedAtom"))).
Proof. repeat split. Qed.

(** * Further properties *)

(** ** The walk of [find_cond_nodes] *)

Section walk.
Context {A : Type} `{Countable A}.

(** X1: [find_cond_nodes] never raises, in either mode: every [None] it
    meets finds a condition to pop; and the pairs it yields are those of
    the depth-first walk of the tree, each leaf with the restrictions of
    the conditionals around it, the outermost first. *)
Theorem find_cond_nodes_depth_first (restriction_set : list (node A))
    (yield_non_conditionals : bool) :
  find_cond_nodes restriction_set yield_non_conditionals
  = inr (concat (map (yielded yield_non_conditionals []) restriction_set)).
Proof. apply find_cond_nodes_yielded. Qed.

Lemma filter_concat_map {X Y} (P : Y → Prop) `{∀ y, Decision (P y)}
    (f g : X → list Y) (l : list X) :
  Forall (λ x, g x = filter P (f x)) l →
  concat (map g l) = filter P (concat (map f l)).
Proof.
  induction 1 as [|x l Hx _ IH]; simpl; [done|].
  by rewrite filter_app, Hx, IH.
Qed.

Lemma yielded_conditional_only (n : node A) :
  ∀ stack,
    yielded false stack n
    = filter (λ y : A * list ContainmentMatch, y.2 ≠ []) (yielded true stack n).
Proof.
  induction n as [a|a cs IH|cls rs IH|attr r ps IH] using node_ind';
    intros stack; simpl.
  - rewrite orb_true_r, orb_false_r.
    destruct stack as [|c stack]; simpl; [done|].
    by rewrite filter_cons_True.
  - apply filter_concat_map. eapply Forall_impl; [exact IH|]. by intros n Hn.
  - apply filter_concat_map. eapply Forall_impl; [exact IH|]. by intros n Hn.
  - apply filter_concat_map. eapply Forall_impl; [exact IH|]. by intros n Hn.
Qed.

Lemma yielded_all_conditional_only (rs : list (node A)) stack :
  concat (map (yielded false stack) rs)
  = filter (λ y : A * list ContainmentMatch, y.2 ≠ [])
           (concat (map (yielded true stack) rs)).
Proof.
  apply filter_concat_map, Forall_forall. intros n _.
  apply yielded_conditional_only.
Qed.

(** X2: the flag [yield_non_conditionals] only adds the leaves that are
    under no conditional: what the walk yields without it is what it
    yields with it, less the pairs whose list of conditions is empty, in
    the same order. *)
Theorem find_cond_nodes_modes (restriction_set : list (node A)) :
  ∃ ys, find_cond_nodes restriction_set true = inr ys
        ∧ find_cond_nodes restriction_set false
          = inr (filter (λ y : A * list ContainmentMatch, y.2 ≠ []) ys).
Proof.
  rewrite !find_cond_nodes_yielded. eexists. split; [done|].
  by rewrite yielded_all_conditional_only.
Qed.

End walk.

(** ** The dict of [node_conds] *)

Section node_conds_dict.
Context {A : Type} `{Countable A}.

Lemma node_conds_step_cond nc ar (a : A) c stack :
  node_conds_step (nc, ar) (a, c :: stack)
  = (<[ a := default [] (nc !! a) ++ [cond_of (c :: stack)] ]> nc, ar).
Proof. by destruct stack. Qed.

Lemma conds_for_nil_stack (L a : A) ys :
  conds_for L ((a, []) :: ys) = conds_for L ys.
Proof. unfold conds_for. simpl. by case_decide. Qed.

Lemma conds_for_same (L : A) c stack ys :
  conds_for L ((L, c :: stack) :: ys) = cond_of (c :: stack) :: conds_for L ys.
Proof. unfold conds_for. simpl. by rewrite decide_True. Qed.

Lemma conds_for_other (L a : A) stack ys :
  a ≠ L → conds_for L ((a, stack) :: ys) = conds_for L ys.
Proof. intros Hne. unfold conds_for. simpl. by rewrite decide_False. Qed.

Lemma foldl_node_conds_step (L : A) ys :
  ∀ nc ar,
    (foldl node_conds_step (nc, ar) ys).1 !! L
    = match conds_for L ys with
      | [] => nc !! L
      | cs => Some (default [] (nc !! L) ++ cs)
      end
    ∧ (L ∈ (foldl node_conds_step (nc, ar) ys).2 ↔ L ∈ ar ∨ (L, []) ∈ ys).
Proof.
  induction ys as [|[a stack] ys IH]; intros nc ar.
  - simpl. split; [done|]. set_solver.
  - destruct stack as [|c stack].
    + change (foldl node_conds_step (nc, ar) ((a, []) :: ys))
        with (foldl node_conds_step (nc, {[ a ]} ∪ ar) ys).
      destruct (IH nc ({[ a ]} ∪ ar)) as [-> ->]. split.
      * by rewrite conds_for_nil_stack.
      * rewrite elem_of_cons. set_solver.
    + change (foldl node_conds_step (nc, ar) ((a, c :: stack) :: ys))
        with (foldl node_conds_step
                (node_conds_step (nc, ar) (a, c :: stack)) ys).
      rewrite node_conds_step_cond.
      destruct (IH (<[ a := default [] (nc !! a) ++ [cond_of (c :: stack)] ]> nc)
                   ar) as [-> ->].
      split.
      * destruct (decide (a = L)) as [->|Hne].
        -- rewrite conds_for_same, lookup_insert_eq.
           destruct (conds_for L ys); [done|]. simpl. by rewrite <- app_assoc.
        -- by rewrite conds_for_other, lookup_insert_ne.
      * rewrite elem_of_cons. naive_solver.
Qed.

Lemma drop_always_required_other (L : A) l :
  ∀ nc : gmap A (list cond_restriction),
    L ∉ l → drop_always_required l nc !! L = nc !! L.
Proof.
  unfold drop_always_required.
  induction l as [|k l IH]; intros nc Hl; simpl; [done|].
  apply not_elem_of_cons in Hl as [Hne Hl]. rewrite IH by done.
  case_decide; [|done]. by rewrite lookup_delete_ne.
Qed.

Lemma compute_node_conds_lookup (rs : list (node A)) d (L : A) :
  compute_node_conds rs = inr d →
  d !! L
  = if bool_decide ((L, []) ∈ concat (map (yielded true []) rs)) then None
    else match conds_for L (concat (map (yielded true []) rs)) with
         | [] => None
         | cs => Some cs
         end.
Proof.
  unfold compute_node_conds. rewrite find_cond_nodes_yielded.
  destruct (foldl_node_conds_step L (concat (map (yielded true []) rs)) ∅ ∅)
    as [Hnc Har].
  destruct (foldl node_conds_step _ _) as [nc ar]. simpl in Hnc, Har.
  intros [= <-]. case_bool_decide as Hin.
  - apply drop_always_required_lookup. right. apply elem_of_elements.
    apply Har. by right.
  - rewrite drop_always_required_other.
    + rewrite Hnc, lookup_empty. by destruct (conds_for _ _).
    + rewrite elem_of_elements, Har. set_solver.
Qed.

(** X3: the dict [node_conds] computes, key by key. A leaf the walk
    meets under no conditional, anywhere in the tree, is no key; any
    other leaf is a key exactly when the walk meets it, and its value
    lists one entry for each time the walk meets it, in the order of the
    walk: the restriction of the conditional around it, or
    [values.AndRestriction] over the restrictions of all the
    conditionals around it, the outermost first. *)
Theorem node_conds_lookup (rs : list (node A)) (ec : ElementClass)
    (kc : option (gset string)) :
  ∃ d t',
    node_conds (mkDepSet rs ec (NCBool true) kc) = inr (d, t')
    ∧ ∀ L, d !! L
           = if bool_decide ((L, []) ∈ concat (map (yielded true []) rs))
             then None
             else match conds_for L (concat (map (yielded true []) rs)) with
                  | [] => None
                  | cs => Some cs
                  end.
Proof.
  unfold node_conds. simpl.
  destruct (compute_node_conds_total rs) as [d Hd]. rewrite Hd.
  eexists _, _. split; [done|]. intros L.
  by apply compute_node_conds_lookup.
Qed.

End node_conds_dict.

(** ** [known_conditionals] *)

Section known_conditionals.
Context {A : Type} `{Countable A}.

Lemma cond_flags_cond_of (stack : list ContainmentMatch) :
  cond_flags (cond_of stack) = ⋃ (vals <$> stack).
Proof. destruct stack as [|c [|c' stack]]; simpl; set_solver. Qed.

Lemma elem_of_conds_for (L : A) ys c :
  c ∈ conds_for L ys →
  ∃ stack, (L, stack) ∈ ys ∧ stack ≠ [] ∧ c = cond_of stack.
Proof.
  unfold conds_for. intros ([a stack] & Hin & Hc)%list_elem_of_omap.
  simpl in Hc. case_decide as Ha; [|done]. subst a.
  destruct stack as [|c0 stack]; [done|]. injection Hc as <-.
  by exists (c0 :: stack).
Qed.

Lemma yielded_all_flags (ns : list (node A)) stack :
  Forall (λ n, ∀ stack,
            ⋃ ((λ y : A * list ContainmentMatch, ⋃ (vals <$> y.2))
                 <$> yielded false stack n)
            = (if has_leaf n then ⋃ (vals <$> stack) else ∅) ∪ guard_flags n)
         ns →
  ⋃ ((λ y : A * list ContainmentMatch, ⋃ (vals <$> y.2))
       <$> concat (map (yielded false stack) ns))
  = (if existsb has_leaf ns then ⋃ (vals <$> stack) else ∅)
    ∪ ⋃ (map guard_flags ns).
Proof.
  induction 1 as [|n ns Hn _ IH]; simpl; [set_solver|].
  rewrite fmap_app, union_list_app_L, Hn, IH.
  destruct (has_leaf n), (existsb has_leaf ns); simpl; set_solver.
Qed.

Lemma yielded_flags (n : node A) :
  ∀ stack,
    ⋃ ((λ y : A * list ContainmentMatch, ⋃ (vals <$> y.2))
         <$> yielded false stack n)
    = (if has_leaf n then ⋃ (vals <$> stack) else ∅) ∪ guard_flags n.
Proof.
  induction n as [a|a cs IH|cls rs IH|attr r ps IH] using node_ind';
    intros stack; simpl.
  - rewrite orb_false_r. destruct stack as [|c stack]; simpl; set_solver.
  - by apply yielded_all_flags.
  - by apply yielded_all_flags.
  - rewrite yielded_all_flags by done.
    rewrite fmap_app, union_list_app_L.
    destruct (existsb has_leaf ps); simpl; set_solver.
Qed.

Lemma known_conditionals_computed (rs : list (node A)) :
  ⋃ ((λ y : A * list ContainmentMatch, ⋃ (vals <$> y.2))
       <$> concat (map (yielded false []) rs))
  = ⋃ (map guard_flags rs).
Proof.
  rewrite yielded_all_flags.
  - destruct (existsb has_leaf rs); simpl; set_solver.
  - apply Forall_forall. intros n _. apply yielded_flags.
Qed.

(** X4: what [known_conditionals] returns. For a DepSet built with
    [node_conds=False] it is the empty set, and nothing is stored. For
    any other DepSet whose cache is empty it is the set of the flags of
    those conditionals that have a leaf somewhere below them, it never
    raises, and the set is stored in the object; a conditional that
    guards no leaf contributes nothing. *)
Theorem known_conditionals_guard_flags (t : DepSet A) :
  (_node_conds t = NCBool false → known_conditionals t = inr (∅, t))
  ∧ (_node_conds t ≠ NCBool false → _known_conditionals t = None →
     known_conditionals t
     = inr (⋃ (map guard_flags (restrictions t)),
            mkDepSet (restrictions t) (element_class t) (_node_conds t)
                     (Some (⋃ (map guard_flags (restrictions t)))))).
Proof.
  unfold known_conditionals. split.
  - by intros ->.
  - intros Hnc ->. rewrite find_cond_nodes_yielded.
    rewrite known_conditionals_computed.
    by destruct (_node_conds t) as [[|]|d].
Qed.

(** X5: [known_conditionals] is cached: a second read returns the same
    set and leaves the object as the first read left it; and unless the
    DepSet was built with [node_conds=False], the set does not depend on
    whether [node_conds] was read before. *)
Theorem known_conditionals_cached (t : DepSet A) :
  ∃ kc t',
    known_conditionals t = inr (kc, t')
    ∧ known_conditionals t' = inr (kc, t')
    ∧ restrictions t' = restrictions t
    ∧ (_node_conds t ≠ NCBool false →
       ∃ d t1 t2, node_conds t = inr (d, t1)
                  ∧ known_conditionals t1 = inr (kc, t2)).
Proof.
  unfold known_conditionals, node_conds.
  rewrite find_cond_nodes_yielded.
  destruct t as [rs ec [[|]|d] [kc|]]; simpl.
  - eexists _, _. repeat split. intros _.
    destruct (compute_node_conds_total rs) as [d ->]. by eexists _, _, _.
  - eexists _, _. split; [done|]. simpl. repeat split. intros _.
    destruct (compute_node_conds_total rs) as [d ->].
    eexists _, _, _. split; [done|]. simpl. by rewrite find_cond_nodes_yielded.
  - eexists _, _. repeat split. done.
  - eexists _, _. repeat split. done.
  - eexists _, _. repeat split. intros _. by eexists _, _, _.
  - eexists _, _. split; [done|]. simpl. repeat split. intros _.
    eexists _, _, _. split; [done|]. simpl. by rewrite find_cond_nodes_yielded.
Qed.

(** X6: for a DepSet built with [node_conds=False] the order of the reads
    matters. Before [node_conds] is read, [known_conditionals] is the
    empty set; reading [node_conds] stores an empty dict in place of the
    flag, and from then on [known_conditionals] is computed by the walk
    over the tree. *)
Theorem known_conditionals_after_node_conds (t : DepSet A) :
  _node_conds t = NCBool false → _known_conditionals t = None →
  ∃ t1 t2,
    known_conditionals t = inr (∅, t)
    ∧ node_conds t = inr (∅, t1)
    ∧ known_conditionals t1
      = inr (⋃ (map guard_flags (restrictions t)), t2).
Proof.
  destruct t as [rs ec nc kc]. simpl. intros -> ->.
  unfold known_conditionals, node_conds. simpl.
  eexists _, _. split; [done|]. split; [done|]. simpl.
  rewrite find_cond_nodes_yielded. by rewrite known_conditionals_computed.
Qed.

(** X7: every flag an entry of [node_conds] names is in
    [known_conditionals]. *)
Theorem node_conds_flags_known (rs : list (node A)) (ec : ElementClass) :
  ∃ d t1 kc t2,
    node_conds (DepSet_init rs ec (NCBool true)) = inr (d, t1)
    ∧ known_conditionals t1 = inr (kc, t2)
    ∧ ∀ L cs c, d !! L = Some cs → c ∈ cs → cond_flags c ⊆ kc.
Proof.
  unfold node_conds. simpl.
  destruct (compute_node_conds_total rs) as [d Hd]. rewrite Hd.
  eexists _, _, _, _. split; [done|].
  unfold known_conditionals. simpl. rewrite find_cond_nodes_yielded.
  split; [done|]. intros L cs c HL Hc.
  rewrite (compute_node_conds_lookup rs d L Hd) in HL.
  case_bool_decide; [done|].
  assert (cs = conds_for L (concat (map (yielded true []) rs))) as ->
    by (by destruct (conds_for _ _); simplify_eq).
  apply elem_of_conds_for in Hc as (stack & Hin & Hne & ->).
  rewrite cond_flags_cond_of, yielded_all_conditional_only.
  intros x Hx. apply elem_of_union_list.
  exists (⋃ (vals <$> stack)). split; [|done].
  apply (list_elem_of_fmap_2
           (λ y : A * list ContainmentMatch, ⋃ (vals <$> y.2)) _ (L, stack)).
  by apply list_elem_of_filter.
Qed.

End known_conditionals.

(** X6 on a DepSet built with [node_conds=False] around a conditional. *)
Lemma known_conditionals_after_node_conds_witness :
  let t := DepSet_init [Conditional "use" (use_flag "x") [Leaf "a"]] atom
                       (NCBool false) in
  ∃ t1 t2,
    known_conditionals t = inr (∅, t)
    ∧ node_conds t = inr (∅, t1)
    ∧ known_conditionals t1
      = inr (⋃ (map guard_flags (restrictions t)), t2).
Proof.
  apply (known_conditionals_after_node_conds
           (DepSet_init [Conditional "use" (use_flag "x") [Leaf "a"]] atom
                        (NCBool false))); reflexivity.
Defined.

(** ** [evaluate_depset] and the views of its result *)

Section evaluate_views.
Context {A : Type} `{Countable A}.

(** X8: whatever [evaluate_conditionals] computes, the DepSet that
    [evaluate_depset] returns has an empty [node_conds], and after that
    read it reports no conditionals and evaluates to itself. *)
Theorem evaluate_depset_node_conds_empty
    (evaluate_conditionals :
       DepSet A → gset string → option (gset string) → list (node A))
    (t : DepSet A) (cond_dict : gset string)
    (tristate_filter : option (gset string)) :
  ∃ t',
    node_conds (evaluate_depset evaluate_conditionals t cond_dict
                  tristate_filter) = inr (∅, t')
    ∧ has_conditionals t' = false
    ∧ evaluate_depset evaluate_conditionals t' cond_dict tristate_filter = t'.
Proof.
  unfold evaluate_depset at 1.
  destruct (has_conditionals t) eqn:Ht; simpl.
  - eexists. by repeat split.
  - unfold node_conds. unfold has_conditionals in Ht.
    destruct t as [rs ec [[|]|d] kc]; simpl in *; [done| |].
    + eexists. by repeat split.
    + apply negb_false_iff, bool_decide_eq_true in Ht as ->.
      eexists. split; [done|]. split; [done|].
      unfold evaluate_depset. done.
Qed.

End evaluate_views.

(** ** The shape of the trees [parse] builds *)

Section parsed_shape.
Context {A : Type}.
Variable dep_str : string.
Variable operators : gmap string boolean_cls.
Variable element_func : string → option string → exn + element A.
Variable allow_src_uri_file_renames : bool.

(** A property of nodes that holds of every element, of every group of
    two nodes or more and of every conditional on one flag whose children
    have it, holds of every node in the frames of the parser. *)
Lemma parse_words_nodes (P : node A → Prop) :
  (∀ x, P (node_of_element x)) →
  (∀ op x y ys, Forall P (x :: y :: ys) → P (Group op (x :: y :: ys))) →
  (∀ flag neg x xs,
     Forall P (x :: xs) →
     P (Conditional "use" (mkContainmentMatch {[ flag ]} neg) (x :: xs))) →
  ∀ (n : nat) (words : list string) depsets raw_conditionals node_conds result,
    (length words ≤ n)%nat →
    Forall (Forall P) depsets →
    parse_words dep_str operators element_func allow_src_uri_file_renames
                words depsets raw_conditionals node_conds = inr result →
    Forall (Forall P) result.1.1.
Proof.
  intros Helem Hgroup Hcond.
  induction n as [|n IH]; intros words depsets rc nc result Hlen Hinv Hrun;
    destruct words as [|k words1]; simpl in Hlen; try lia.
  - by simplify_eq/=.
  - by simplify_eq/=.
  - simpl in Hrun. unfold raise in Hrun.
    repeat case_match; try discriminate Hrun;
      (eapply IH; [| |eassumption]; [simpl in *; lia|]);
      decompose_Forall_hyps;
      repeat first [apply Forall_cons; split | apply Forall_app; split
                   | apply Forall_nil_2
                   | apply Helem
                   | apply Hgroup
                   | apply Hcond
                   | assumption].
Qed.

Lemma holds_conditional_element (x : element A) :
  holds_conditional (node_of_element x) = false.
Proof. by destruct x. Qed.

Lemma frames_hold_conditional_close (top parent : list (node A)) rest n :
  holds_conditional n = existsb holds_conditional top →
  frames_hold_conditional ((parent ++ [n]) :: rest)
  = frames_hold_conditional (top :: parent :: rest).
Proof.
  unfold frames_hold_conditional. simpl. intros Hn.
  rewrite existsb_app. simpl. rewrite Hn, orb_false_r.
  by destruct (existsb holds_conditional top),
              (existsb holds_conditional parent).
Qed.

Lemma frames_hold_conditional_leaf (top : list (node A)) below x :
  frames_hold_conditional ((top ++ [node_of_element x]) :: below)
  = frames_hold_conditional (top :: below).
Proof.
  unfold frames_hold_conditional. simpl.
  by rewrite existsb_app; simpl; rewrite holds_conditional_element, !orb_false_r.
Qed.

Lemma frames_hold_conditional_Conditional (parent : list (node A)) rest attr r ps :
  frames_hold_conditional ((parent ++ [Conditional attr r ps]) :: rest) = true.
Proof.
  unfold frames_hold_conditional. simpl. rewrite existsb_app. simpl.
  by rewrite orb_true_r.
Qed.

(** The local [node_conds] of the loop says whether a conditional has
    been built. *)
Lemma parse_words_node_conds (n : nat) :
  ∀ (words : list string) depsets raw_conditionals node_conds result,
    (length words ≤ n)%nat →
    node_conds = frames_hold_conditional depsets →
    parse_words dep_str operators element_func allow_src_uri_file_renames
                words depsets raw_conditionals node_conds = inr result →
    result.2 = frames_hold_conditional result.1.1.
Proof.
  induction n as [|n IH]; intros words depsets rc nc result Hlen Hinv Hrun;
    destruct words as [|k words1]; simpl in Hlen; try lia.
  - by simplify_eq/=.
  - by simplify_eq/=.
  - simpl in Hrun. unfold raise in Hrun.
    repeat case_match; try discriminate Hrun;
      (eapply IH; [| |eassumption]; [simpl in *; lia|]);
      subst;
      first [ by rewrite frames_hold_conditional_Conditional
            | by rewrite frames_hold_conditional_leaf
            | by symmetry; apply frames_hold_conditional_close; simpl;
                 rewrite ?orb_false_r
            | done ].
Qed.

End parsed_shape.

Section parsed_depset.
Context {A : Type} `{Countable A}.
Variable instantiate : ElementClass → string → option string → exn + element A.

(** A DepSet returned by [parse] is built from the single frame the loop
    ends with and from its local [node_conds]. *)
Lemma parse_inr dep_str element_class operators element_func
    (transitive_use_atoms allow_src_uri_file_renames : bool) (t : DepSet A) :
  parse instantiate dep_str element_class operators element_func
        transitive_use_atoms allow_src_uri_file_renames = inr t →
  ∃ rc nc,
    parse_words dep_str (default default_operators operators)
                (default (instantiate element_class) element_func)
                allow_src_uri_file_renames (PyStr.split dep_str) [[]] [] false
    = inr ([restrictions t], rc, nc)
    ∧ t = if transitive_use_atoms && negb nc
          then DepSet_init (restrictions t) transitive_use_atom
                 (NCBool (_has_transitive_use_atoms (restrictions t)))
          else DepSet_init (restrictions t) element_class (NCBool nc).
Proof.
  unfold parse. intros Hparse.
  destruct (parse_words _ _ _ _ _ _ _ _) as [[k e]|[[[|rs [|]] rc] nc]];
    try done.
  exists rc, nc. by destruct (transitive_use_atoms && negb nc); simplify_eq.
Qed.

Lemma parse_nodes (P : node A → Prop) dep_str element_class operators
    element_func (transitive_use_atoms allow_src_uri_file_renames : bool)
    (t : DepSet A) :
  (∀ x, P (node_of_element x)) →
  (∀ op x y ys, Forall P (x :: y :: ys) → P (Group op (x :: y :: ys))) →
  (∀ flag neg x xs,
     Forall P (x :: xs) →
     P (Conditional "use" (mkContainmentMatch {[ flag ]} neg) (x :: xs))) →
  parse instantiate dep_str element_class operators element_func
        transitive_use_atoms allow_src_uri_file_renames = inr t →
  Forall P (restrictions t).
Proof.
  intros Helem Hgroup Hcond (rc & nc & Hrun & _)%parse_inr.
  eapply parse_words_nodes with (n := length (PyStr.split dep_str)) in Hrun;
    try done.
  - simpl in Hrun. by apply Forall_cons in Hrun as [Hrs _].
  - by repeat constructor.
Qed.

Lemma Forall_forallb (f : node A → bool) (l : list (node A)) :
  Forall (λ n, f n = true) l ↔ forallb f l = true.
Proof.
  induction l as [|x l IH]; simpl; [done|].
  rewrite Forall_cons, andb_true_iff. by rewrite IH.
Qed.

Lemma groups_of_two_element (x : element A) :
  groups_of_two (node_of_element x) = true.
Proof. by destruct x. Qed.

Lemma use_conditionals_element (x : element A) :
  use_conditionals (node_of_element x) = true.
Proof. by destruct x. Qed.

Lemma use_conditionals_Conditional flag neg (ps : list (node A)) :
  Forall (λ n, use_conditionals n = true) ps →
  use_conditionals (Conditional "use" (mkContainmentMatch {[ flag ]} neg) ps)
  = true.
Proof.
  intros Hps.
  change (bool_decide ("use" = "use")
          && bool_decide (size ({[ flag ]} : gset string) = 1%nat)
          && forallb use_conditionals ps = true).
  rewrite size_singleton. by apply Forall_forallb in Hps as ->.
Qed.

Lemma use_conditionals_Group op (rs : list (node A)) :
  Forall (λ n, use_conditionals n = true) rs →
  use_conditionals (Group op rs) = true.
Proof. intros Hrs. simpl. by apply Forall_forallb in Hrs. Qed.

Lemma parse_use_conditionals_nodes dep_str element_class operators
    element_func (transitive_use_atoms allow_src_uri_file_renames : bool)
    (t : DepSet A) :
  parse instantiate dep_str element_class operators element_func
        transitive_use_atoms allow_src_uri_file_renames = inr t →
  Forall (λ n, use_conditionals n = true) (restrictions t).
Proof.
  apply (parse_nodes (λ n, use_conditionals n = true)).
  - apply use_conditionals_element.
  - intros. by apply use_conditionals_Group.
  - intros. by apply use_conditionals_Conditional.
Qed.

(** X9: every group in a DepSet returned by [parse], at any depth, has
    two children or more, whatever the operator map is: a group that
    would have one child is replaced by the child. *)
Theorem parse_groups_of_two dep_str element_class operators element_func
    (transitive_use_atoms allow_src_uri_file_renames : bool) (t : DepSet A) :
  parse instantiate dep_str element_class operators element_func
        transitive_use_atoms allow_src_uri_file_renames = inr t →
  forallb groups_of_two (restrictions t) = true.
Proof.
  intros Hparse. apply Forall_forallb.
  revert Hparse. apply (parse_nodes (λ n, groups_of_two n = true)).
  - apply groups_of_two_element.
  - intros op x y ys Hxs. by apply Forall_forallb in Hxs.
  - intros flag neg x xs Hxs. by apply Forall_forallb in Hxs.
Qed.

(** X10: every conditional in a DepSet returned by [parse], at any
    depth, is on the attribute [use] and its restriction holds exactly
    one value. *)
Theorem parse_use_conditionals dep_str element_class operators element_func
    (transitive_use_atoms allow_src_uri_file_renames : bool) (t : DepSet A) :
  parse instantiate dep_str element_class operators element_func
        transitive_use_atoms allow_src_uri_file_renames = inr t →
  forallb use_conditionals (restrictions t) = true.
Proof.
  intros Hparse. apply Forall_forallb.
  by eapply parse_use_conditionals_nodes.
Qed.

(** The flag and the class the pure-Python loop records. *)
Lemma parse_loop_flag_and_class dep_str given_class operators element_func
    (transitive_use_atoms allow_src_uri_file_renames : bool) (t : DepSet A) :
  parse instantiate dep_str given_class operators element_func
        transitive_use_atoms allow_src_uri_file_renames = inr t →
  has_conditionals t
  = existsb holds_conditional (restrictions t)
    || (transitive_use_atoms && _has_transitive_use_atoms (restrictions t))
  ∧ element_class t
    = (if transitive_use_atoms
          && negb (existsb holds_conditional (restrictions t))
       then transitive_use_atom else given_class)
  ∧ _known_conditionals t = None.
Proof.
  intros (rc & nc & Hrun & Ht)%parse_inr.
  apply parse_words_node_conds with (n := length (PyStr.split dep_str)) in Hrun;
    [|done..].
  unfold frames_hold_conditional in Hrun. simpl in Hrun.
  rewrite orb_false_r in Hrun. rewrite <- Hrun.
  destruct transitive_use_atoms, nc; rewrite Ht; done.
Qed.

(** X11: the flag and the element class of a DepSet returned by
    [DepSet.parse], on each of its two paths. When the native parser is
    called and returns restrictions, the DepSet holds them with the
    element class given, and [has_conditionals] is the flag the native
    parser returned or, with [transitive_use_atoms], whether an element
    is a transitive use atom. When the pure-Python loop runs,
    [has_conditionals] is true exactly when the tree holds a conditional
    or, with [transitive_use_atoms], an element that is a transitive use
    atom; and with [transitive_use_atoms] and no conditional in the tree
    the element class recorded is [transitive_use_atom], whether or not
    such an element was built, otherwise the class given. On both paths
    the cache of [known_conditionals] starts empty. The loop is what
    runs when the extension is missing or file renames are allowed. *)
Theorem parse_flag_and_class (parse_depset : option native_parser)
    dep_str given_class operators element_func
    (transitive_use_atoms allow_src_uri_file_renames : bool) :
  (∀ hc rs,
     native_call parse_depset dep_str
       (default (instantiate given_class) element_func) operators
       allow_src_uri_file_renames = Some (inr (hc, Some rs)) →
     ∃ t, DepSet_parse instantiate parse_depset dep_str given_class operators
            element_func transitive_use_atoms allow_src_uri_file_renames
          = inr t
          ∧ restrictions t = rs
          ∧ has_conditionals t
            = hc || (transitive_use_atoms && _has_transitive_use_atoms rs)
          ∧ element_class t = given_class
          ∧ _known_conditionals t = None)
  ∧ (∀ t,
       native_call parse_depset dep_str
         (default (instantiate given_class) element_func) operators
         allow_src_uri_file_renames = None
       ∨ (∃ hc, native_call parse_depset dep_str
                  (default (instantiate given_class) element_func) operators
                  allow_src_uri_file_renames = Some (inr (hc, None))) →
       DepSet_parse instantiate parse_depset dep_str given_class operators
         element_func transitive_use_atoms allow_src_uri_file_renames = inr t →
       has_conditionals t
       = existsb holds_conditional (restrictions t)
         || (transitive_use_atoms
             && _has_transitive_use_atoms (restrictions t))
       ∧ element_class t
         = (if transitive_use_atoms
               && negb (existsb holds_conditional (restrictions t))
            then transitive_use_atom else given_class)
       ∧ _known_conditionals t = None)
  ∧ (parse_depset = None ∨ allow_src_uri_file_renames = true →
     native_call parse_depset dep_str
       (default (instantiate given_class) element_func) operators
       allow_src_uri_file_renames = None).
Proof.
  split; [|split].
  - intros hc rs Hcall. unfold DepSet_parse. rewrite Hcall.
    eexists. split; [done|]. simpl. repeat split.
    by destruct hc, transitive_use_atoms.
  - intros t Hcall. unfold DepSet_parse.
    destruct Hcall as [Hcall|[hc Hcall]]; rewrite Hcall;
      apply parse_loop_flag_and_class.
  - unfold native_call. intros [Hnone|Hallow].
    + by rewrite Hnone.
    + rewrite Hallow. by destruct parse_depset.
Qed.

End parsed_depset.

(** X9 on the DepSet parsed from [|| ( a b ) ( c )]. *)
Lemma parse_groups_of_two_witness :
  forallb groups_of_two
    [Group OrRestriction [Leaf "a"; Leaf "b"]; Leaf "c"] = true.
Proof.
  apply (parse_groups_of_two text_instantiate "|| ( a b ) ( c )" atom
           None None false false
           (DepSet_init [Group OrRestriction [Leaf "a"; Leaf "b"]; Leaf "c"]
                        atom (NCBool false))).
  vm_compute. reflexivity.
Defined.

(** X10 on the DepSet parsed from [!x? ( a y? ( b ) )]. *)
Lemma parse_use_conditionals_witness :
  forallb use_conditionals
    [Conditional "use" (mkContainmentMatch {[ "x" ]} true)
       [Leaf "a"; Conditional "use" (use_flag "y") [Leaf "b"]]] = true.
Proof.
  apply (parse_use_conditionals text_instantiate "!x? ( a y? ( b ) )" atom
           None None false false
           (DepSet_init
              [Conditional "use" (mkContainmentMatch {[ "x" ]} true)
                 [Leaf "a"; Conditional "use" (use_flag "y") [Leaf "b"]]]
              atom (NCBool true))).
  vm_compute. reflexivity.
Defined.

(** X11 on [a || ( b c )] parsed with [transitive_use_atoms]: through a
    native parser that returns one leaf, and through the loop, where no
    conditional and no transitive atom is found and the class recorded is
    [transitive_use_atom]. *)
Lemma parse_flag_and_class_witness :
  (∃ t, DepSet_parse text_instantiate
          (Some (λ _ _ _ _, inr (false, Some [Leaf "a"])))
          "a || ( b c )" atom None None true false = inr t
        ∧ restrictions t = [Leaf "a"]
        ∧ has_conditionals t
          = false || (true && _has_transitive_use_atoms [Leaf "a"])
        ∧ element_class t = atom
        ∧ _known_conditionals t = None)
  ∧ (let t := DepSet_init [Leaf "a"; Group OrRestriction [Leaf "b"; Leaf "c"]]
                          transitive_use_atom (NCBool false) in
     has_conditionals t
     = existsb holds_conditional (restrictions t)
       || (true && _has_transitive_use_atoms (restrictions t))
     ∧ element_class t
       = (if true && negb (existsb holds_conditional (restrictions t))
          then transitive_use_atom else atom)
     ∧ _known_conditionals t = None).
Proof.
  split.
  - apply (proj1 (parse_flag_and_class text_instantiate
                    (Some (λ _ _ _ _, inr (false, Some [Leaf "a"])))
                    "a || ( b c )" atom None None true false)).
    reflexivity.
  - apply (proj1 (proj2 (parse_flag_and_class text_instantiate None
                           "a || ( b c )" atom None None true false))).
    + by left.
    + vm_compute. reflexivity.
Defined.

(** ** The stringifier as a function of the tree *)

Section rendering.
Context {A : Type} `{Countable A}.
Variable func : leaf_obj → string.

Lemma elements_size_1 (X : gset string) :
  size X = 1%nat → ∃ v, elements X = [v].
Proof.
  unfold size, set_size. simpl.
  destruct (elements X) as [|v [|]]; try done. by exists v.
Qed.

Lemma use_conditionals_inv attr r (ps : list (node A)) :
  use_conditionals (Conditional attr r ps) = true →
  (∃ v, elements (vals r) = [v]) ∧ forallb use_conditionals ps = true.
Proof.
  simpl. intros [[_ Hsize]%andb_true_iff Hps]%andb_true_iff.
  apply bool_decide_eq_true in Hsize. split; [|done].
  by apply elements_size_1.
Qed.

Lemma stringify_each_rendered (σ : A → leaf_obj) (ns : list (node A)) :
  Forall (λ n, ∀ l, _internal_stringify_boolean None func n (σ, l)
                    = (None, (σ, l ++ rendered func σ n))) ns →
  ∀ l, stringify_each None func ns (σ, l)
       = (None, (σ, l ++ concat (map (rendered func σ) ns))).
Proof.
  induction 1 as [|n ns Hn _ IH]; intros l; simpl.
  - by rewrite app_nil_r.
  - by rewrite Hn, IH, app_assoc.
Qed.

Lemma Forall_use_conditionals (P : node A → Prop) (ns : list (node A)) :
  Forall (λ n, use_conditionals n = true → P n) ns →
  forallb use_conditionals ns = true → Forall P ns.
Proof.
  intros HP Hns%Forall_forallb. rewrite Forall_forall in HP, Hns.
  apply Forall_forall. intros n Hn. apply HP; [done|]. by apply Hns.
Qed.

(** Without a domain the stringifier, on a tree whose conditionals hold
    one value each, appends [rendered] to the list and leaves the store
    alone. *)
Lemma stringify_rendered (σ : A → leaf_obj) (n : node A) :
  use_conditionals n = true →
  ∀ l, _internal_stringify_boolean None func n (σ, l)
       = (None, (σ, l ++ rendered func σ n)).
Proof.
  induction n as [a|a cs IH|cls rs IH|attr r ps IH] using node_ind';
    intros Hn l.
  - done.
  - done.
  - rewrite stringify_Group. unfold visit at 1. simpl fst. simpl snd.
    rewrite stringify_each_rendered by (by apply Forall_use_conditionals).
    unfold close_group, visit. simpl. by rewrite <- !app_assoc.
  - apply use_conditionals_inv in Hn as [[v Hv] Hps].
    rewrite stringify_Conditional. simpl rendered. rewrite Hv.
    unfold visit at 1. simpl fst. simpl snd.
    rewrite stringify_each_rendered by (by apply Forall_use_conditionals).
    unfold close_group, visit. simpl. by rewrite <- !app_assoc.
Qed.

Lemma stringify_all_rendered (σ : A → leaf_obj) (ns : list (node A)) :
  forallb use_conditionals ns = true →
  ∀ l, stringify_each None func ns (σ, l)
       = (None, (σ, l ++ concat (map (rendered func σ) ns))).
Proof.
  intros Hns. apply stringify_each_rendered.
  apply Forall_use_conditionals; [|done].
  apply Forall_forall. intros n _. apply stringify_rendered.
Qed.

Lemma rendered_nonempty (σ : A → leaf_obj) (n : node A) :
  use_conditionals n = true → rendered func σ n ≠ [].
Proof.
  destruct n as [a|a cs|cls rs|attr r ps]; try done.
  intros [[v Hv] _]%use_conditionals_inv. simpl. by rewrite Hv.
Qed.

Lemma join_sep_concat (ls : list (list string)) :
  Forall (λ l, l ≠ []) ls →
  join_sep (concat ls) = join_sep (map (PyStr.join " ") ls).
Proof.
  induction 1 as [|l ls Hl _ IH]; [done|].
  change (concat (l :: ls)) with (l ++ concat ls).
  change (map (PyStr.join " ") (l :: ls))
    with (PyStr.join " " l :: map (PyStr.join " ") ls).
  rewrite join_sep_app, join_sep_cons, IH, join_sep_join by done.
  by rewrite string_app_assoc.
Qed.

Lemma join_concat (ls : list (list string)) :
  Forall (λ l, l ≠ []) ls →
  PyStr.join " " (concat ls) = PyStr.join " " (map (PyStr.join " ") ls).
Proof.
  intros Hls. apply join_sep_inj; [|by apply join_sep_concat].
  destruct Hls as [|l ls Hl _]; [done|]. by destruct l.
Qed.

(** On such a tree the stringifier, with or without a domain, raises
    only what its visit of a leaf raises. *)
Lemma stringify_each_raises domain (E : exn → Prop) (ns : list (node A)) :
  Forall (λ n, ∀ st e st',
            _internal_stringify_boolean domain func n st = (Some e, st') →
            E e) ns →
  ∀ st e st', stringify_each domain func ns st = (Some e, st') → E e.
Proof.
  induction 1 as [|n ns Hn _ IH]; intros st e st'; simpl; [done|].
  destruct (_internal_stringify_boolean domain func n st) as [[e1|] st1] eqn:E1.
  - intros [= <- <-]. by eapply Hn.
  - apply IH.
Qed.

Lemma close_group_raises (r : option exn * ((A → leaf_obj) * list string)) e st' :
  close_group r = (Some e, st') → r = (Some e, st').
Proof. by destruct r as [[e1|] st1]. Qed.

Lemma stringify_raises domain (E : exn → Prop) :
  (∀ (a : A) st e st',
     stringify_leaf domain func a st = (Some e, st') → E e) →
  ∀ n : node A,
    use_conditionals n = true →
    ∀ st e st', _internal_stringify_boolean domain func n st = (Some e, st') →
                E e.
Proof.
  intros Hleaf.
  induction n as [a|a cs IH|cls rs IH|attr r ps IH] using node_ind';
    intros Hn st e st'.
  - apply Hleaf.
  - apply Hleaf.
  - rewrite stringify_Group. intros Hr%close_group_raises. revert Hr.
    apply stringify_each_raises. by apply Forall_use_conditionals.
  - apply use_conditionals_inv in Hn as [[v Hv] Hps].
    rewrite stringify_Conditional, Hv. intros Hr%close_group_raises.
    revert Hr. apply stringify_each_raises. by apply Forall_use_conditionals.
Qed.

Lemma stringify_boolean_raises domain (E : exn → Prop) (t : DepSet A) σ e σ' :
  (∀ (a : A) st e st',
     stringify_leaf domain func a st = (Some e, st') → E e) →
  Forall (λ n, use_conditionals n = true) (restrictions t) →
  stringify_boolean (inl t) func domain σ = (inl e, σ') → E e.
Proof.
  intros Hleaf Ht. unfold stringify_boolean.
  destruct (stringify_each domain func (restrictions t) (σ, []))
    as [[e1|] [σ1 l1]] eqn:E1; [|done].
  intros [= <- <-]. revert E1. apply stringify_each_raises.
  eapply Forall_impl; [exact Ht|]. intros n Hn. by apply stringify_raises.
Qed.


Lemma sorted_nonempty (l : list pkg) : l ≠ [] → sorted l ≠ [].
Proof.
  destruct l as [|x l]; [done|]. intros _. simpl.
  by destruct (sorted l) as [|y l']; simpl; [|case_decide].
Qed.

Lemma stringify_leaf_matched (d : Domain) (a : A) st e st' :
  (∀ o, slot_locked o = true →
        ∃ matched, itermatch d o = inr matched ∧ matched ≠ []) →
  stringify_leaf (Some d) func a st = (Some e, st') → False.
Proof.
  intros Hd. unfold stringify_leaf.
  destruct (slot_locked (st.1 a)) eqn:Ha; [|done].
  destruct (Hd _ Ha) as (matched & -> & Hne%sorted_nonempty).
  by destruct (sorted matched).
Qed.

(** X13: the string of a DepSet is the strings of its nodes joined by
    single spaces: when every conditional of the tree holds one value,
    [stringify_boolean] without a domain returns, for each node and for
    the DepSet, a string and the store unchanged, and the string of the
    DepSet is the join of the strings of its nodes. *)
Theorem stringify_boolean_joins_nodes (t : DepSet A) (σ : A → leaf_obj) :
  forallb use_conditionals (restrictions t) = true →
  ∃ parts,
    Forall2 (λ n s, stringify_boolean (inr n) func None σ = (inr s, σ))
            (restrictions t) parts
    ∧ stringify_boolean (inl t) func None σ = (inr (PyStr.join " " parts), σ).
Proof.
  intros Ht. exists (map (λ n, PyStr.join " " (rendered func σ n)) (restrictions t)).
  split.
  - apply Forall2_fmap_r, Forall_Forall2_diag.
    apply Forall_forallb in Ht. eapply Forall_impl; [exact Ht|].
    intros n Hn. unfold stringify_boolean.
    by rewrite (stringify_rendered σ n Hn []).
  - unfold stringify_boolean. rewrite stringify_all_rendered by done. simpl.
    rewrite join_concat.
    + by rewrite map_map.
    + apply Forall_forallb in Ht. apply Forall_map.
      eapply Forall_impl; [exact Ht|]. intros n. apply rendered_nonempty.
Qed.

End rendering.

(** X13 on [a x? ( b )]. *)
Lemma stringify_boolean_joins_nodes_witness :
  ∃ parts,
    Forall2 (λ n s, stringify_boolean (inr n) show_leaf None
                      (λ a : string, OtherObj a)
                    = (inr s, λ a, OtherObj a))
            [Leaf "a"; Conditional "use" (use_flag "x") [Leaf "b"]] parts
    ∧ stringify_boolean
        (inl (DepSet_init [Leaf "a"; Conditional "use" (use_flag "x") [Leaf "b"]]
                          atom (NCBool true)))
        show_leaf None (λ a, OtherObj a)
      = (inr (PyStr.join " " parts), λ a, OtherObj a).
Proof.
  apply (stringify_boolean_joins_nodes show_leaf
           (DepSet_init [Leaf "a"; Conditional "use" (use_flag "x") [Leaf "b"]]
                        atom (NCBool true))
           (λ a, OtherObj a)).
  vm_compute. reflexivity.
Defined.

(** ** The slot rewrite over a tree *)

Section slot_rewrite_tree.
Context {A : Type} `{Countable A}.
Variable func : leaf_obj → string.














End slot_rewrite_tree.


(** The tree of the witness, run: the transitive atom is shown with the
    slot and subslot of the package of rank 7. *)
Example slotdep_str_tree_run :
  (stringify_boolean
     (inl (DepSet_init
             [Leaf 2;
              Conditional "use" (use_flag "x")
                [Group OrRestriction [TransitiveLeaf 1 []; Leaf 3]]]
             atom (NCBool true)))
     show_leaf (Some example_domain) example_store).1
  = inr "dev-libs/bar x? ( || ( dev-libs/foo::3/3.0= dev-libs/bar ) )".
Proof. vm_compute. reflexivity. Qed.

Section parse_then_stringify.
Context {A : Type} `{Countable A}.
Variable instantiate : ElementClass → string → option string → exn + element A.


(** X19: with a domain that matches at least one package for every leaf
    whose slot operator is [=], stringifying a DepSet returned by [parse]
    raises nothing. *)
Theorem parse_slotdep_str_total dep_str element_class operators element_func
    (transitive_use_atoms allow_src_uri_file_renames : bool) (t : DepSet A)
    (func : leaf_obj → string) (d : Domain) (σ : A → leaf_obj) :
  parse instantiate dep_str element_class operators element_func
        transitive_use_atoms allow_src_uri_file_renames = inr t →
  (∀ o, slot_locked o = true →
        ∃ matched, itermatch d o = inr matched ∧ matched ≠ []) →
  ∃ s σ', stringify_boolean (inl t) func (Some d) σ = (inr s, σ').
Proof.
  intros Hparse%parse_use_conditionals_nodes Hd.
  destruct (stringify_boolean (inl t) func (Some d) σ) as [[e|s] σ'] eqn:E;
    [|by eexists _, _].
  exfalso. revert E.
  apply (stringify_boolean_raises func (Some d) (λ _, False)); [|done].
  intros a st e' st'. by apply stringify_leaf_matched.
Qed.

End parse_then_stringify.


(** X19 on the atom [dev-libs/foo:=] and the example domain. *)
Lemma parse_slotdep_str_total_witness :
  ∃ s σ',
    stringify_boolean
      (inl (DepSet_init [Group OrRestriction [Leaf 1; Leaf 2]] atom
                        (NCBool false)))
      show_leaf (Some example_domain) example_store
    = (inr s, σ').
Proof.
  apply (parse_slotdep_str_total
           (λ _ k _, inr (PlainElement (String.length k))) "|| ( a ab )"
           atom None None false false).
  - vm_compute. reflexivity.
  - intros [f|text] Ho; [|discriminate Ho].
    apply bool_decide_eq_true in Ho. simpl. rewrite decide_True by done.
    by eexists.
Defined.

(** ** The parser and the words of the string *)

Section parser_words.
Context {A : Type}.
Variable dep_str : string.
Variable operators : gmap string boolean_cls.
Variable element_func : string → option string → exn + element A.

Lemma opens_group_last k kl :
  PyStr.last k = Some kl →
  opens_group operators k
  = bool_decide (kl = "?"%char) || bool_decide (is_Some (operators !! k)).
Proof.
  intros Hkl. unfold opens_group. rewrite Hkl. f_equal.
  apply bool_decide_ext. split; [by intros [= ->]|by intros ->].
Qed.

Lemma leaf_words_skip k words :
  k = ")" ∨ k = "(" ∨ opens_group operators k = true →
  leaf_words operators (k :: words) = leaf_words operators words.
Proof.
  intros Hk. unfold leaf_words. apply filter_cons_False.
  intros (? & ? & Ho). destruct Hk as [|[|Hk]]; congruence.
Qed.

Lemma leaf_words_keep k words :
  k ≠ ")" → k ≠ "(" → opens_group operators k = false →
  leaf_words operators (k :: words) = k :: leaf_words operators words.
Proof. intros. unfold leaf_words. by apply filter_cons_True. Qed.

Lemma frames_elements_cons (top : list (node A)) below :
  frames_elements (top :: below)
  = frames_elements below ++ concat (map tree_elements top).
Proof.
  unfold frames_elements. rewrite reverse_cons, map_app, concat_app. simpl.
  by rewrite app_nil_r.
Qed.

Lemma frames_elements_close (top parent : list (node A)) rest n :
  tree_elements n = concat (map tree_elements top) →
  frames_elements ((parent ++ [n]) :: rest)
  = frames_elements (top :: parent :: rest).
Proof.
  intros Hn. rewrite !frames_elements_cons, map_app, concat_app. simpl.
  by rewrite Hn, app_nil_r, app_assoc.
Qed.

Lemma frames_elements_leaf (top : list (node A)) below x :
  frames_elements ((top ++ [node_of_element x]) :: below)
  = frames_elements (top :: below) ++ [x].
Proof.
  rewrite !frames_elements_cons, map_app, concat_app. simpl.
  destruct x; simpl; by rewrite app_assoc.
Qed.

(** Without file renames, the loop hands each leaf word to the element
    function and appends what it returns to the innermost frame, so the
    elements of the frames grow at the end, by one for each leaf word. *)
Lemma parse_words_leaf_order (n : nat) :
  ∀ (words : list string) depsets raw_conditionals node_conds result,
    (length words ≤ n)%nat →
    parse_words dep_str operators element_func false
                words depsets raw_conditionals node_conds = inr result →
    ∃ es,
      Forall2 (λ k e, element_func k None = inr e)
              (leaf_words operators words) es
      ∧ frames_elements result.1.1 = frames_elements depsets ++ es.
Proof.
  induction n as [|n IH]; intros words depsets rc nc result Hlen Hrun;
    destruct words as [|k words1]; simpl in Hlen; try lia.
  - exists []. simplify_eq/=. split; [constructor|by rewrite app_nil_r].
  - exists []. simplify_eq/=. split; [constructor|by rewrite app_nil_r].
  - simpl in Hrun. unfold raise in Hrun.
    destruct (decide (k = ")")) as [->|Hclose].
    { rewrite leaf_words_skip by auto.
      repeat case_match; try discriminate Hrun;
        (apply IH in Hrun as (es & HF & Hel); [|lia]);
        exists es; (split; [done|]); rewrite Hel; f_equal;
        apply frames_elements_close; simpl; by rewrite ?app_nil_r. }
    destruct (decide (k = "(")) as [->|Hopen].
    { rewrite leaf_words_skip by auto.
      apply IH in Hrun as (es & HF & Hel); [|lia].
      exists es. split; [done|]. rewrite Hel, frames_elements_cons. simpl.
      by rewrite app_nil_r. }
    destruct (PyStr.last k) as [kl|] eqn:Hkl; [|done].
    rewrite <- (opens_group_last k kl Hkl) in Hrun.
    destruct (opens_group operators k) eqn:Hog.
    { rewrite leaf_words_skip by auto.
      destruct words1 as [|k2 words2]; [done|].
      destruct (decide (k2 = "(")) as [->|]; [|done].
      rewrite leaf_words_skip by auto. simpl in Hlen.
      apply IH in Hrun as (es & HF & Hel); [|lia].
      exists es. split; [done|]. rewrite Hel, frames_elements_cons. simpl.
      by rewrite app_nil_r. }
    destruct (PyStr.contains "|"%char k); [done|].
    destruct depsets as [|top below]; [done|].
    destruct (element_func k None) as [e|x] eqn:Hx; [done|].
    rewrite leaf_words_keep by done.
    apply IH in Hrun as (es & HF & Hel); [|lia].
    exists (x :: es). split; [by constructor|].
    rewrite Hel, frames_elements_leaf. by rewrite <- app_assoc.
Qed.

Lemma count_word_cons k w ws :
  count_word k (w :: ws)
  = ((if decide (w = k) then 1 else 0) + count_word k ws)%nat.
Proof. unfold count_word. rewrite filter_cons. by case_decide. Qed.

(** Without file renames, each [(] read pushes a tag and each [)] read
    pops one. *)
Lemma parse_words_balance (n : nat) :
  ∀ (words : list string) depsets raw_conditionals node_conds result,
    (length words ≤ n)%nat →
    parse_words dep_str operators element_func false
                words depsets raw_conditionals node_conds = inr result →
    (length raw_conditionals + count_word "(" words
     = length result.1.2 + count_word ")" words)%nat
    ∧ (length depsets = S (length raw_conditionals) →
       length result.1.1 = S (length result.1.2)).
Proof.
  induction n as [|n IH]; intros words depsets rc nc result Hlen Hrun;
    destruct words as [|k words1]; simpl in Hlen; try lia.
  - by simplify_eq/=.
  - by simplify_eq/=.
  - simpl in Hrun. unfold raise in Hrun.
    repeat case_match; try discriminate Hrun;
      (apply IH in Hrun as [Hc Hl]; [|simpl in *; lia]);
      rewrite !count_word_cons;
      (split; [repeat case_decide; simplify_eq; simpl in *; lia
              |intros; apply Hl; simpl in *; lia]).
Qed.

(** When no word is [->], allowing file renames changes nothing: the
    word looked at ahead of a leaf is put back. *)
Lemma parse_words_no_rename (n : nat) :
  ∀ (words : list string) depsets raw_conditionals node_conds,
    (length words ≤ n)%nat → "->" ∉ words →
    parse_words dep_str operators element_func true
                words depsets raw_conditionals node_conds
    = parse_words dep_str operators element_func false
                  words depsets raw_conditionals node_conds.
Proof.
  induction n as [|n IH]; intros words depsets rc nc Hlen Hno;
    destruct words as [|k words1]; simpl in Hlen; try lia; try done.
  simpl.
  repeat case_match; try done;
    first [ apply IH; [simpl in *; lia|set_solver] | set_solver ].
Qed.

Lemma last_None (k : string) : PyStr.last k = None → k = "".
Proof.
  intros Hk. destruct (decide (k = "")) as [|Hne]; [done|].
  apply last_nonempty in Hne as [c Hc]. congruence.
Qed.

(** With the empty tag in the operator map, an [IndexError] leaves the
    loop only when the element function raised it: the accesses to the
    frames and to the characters of a token do not fail. *)
Lemma parse_words_IndexError (allow_src_uri_file_renames : bool) (n : nat) :
  is_Some (operators !! "") →
  ∀ (words : list string) depsets raw_conditionals node_conds k,
    (length words ≤ n)%nat → Forall (λ k, k ≠ "") words →
    length depsets = S (length raw_conditionals) →
    parse_words dep_str operators element_func allow_src_uri_file_renames
                words depsets raw_conditionals node_conds = inl (k, IndexError) →
    k ∈ words ∧ ∃ rename, element_func k rename = inl IndexError.
Proof.
  intros Hempty.
  induction n as [|n IH]; intros words depsets rc nc k0 Hlen Hne Hbal Hrun;
    destruct words as [|k words1]; simpl in Hlen; try lia; try done.
  apply Forall_cons in Hne as [Hk Hne].
  simpl in Hrun. unfold raise in Hrun.
  destruct (decide (k = ")")) as [->|Hclose].
  { destruct depsets as [|top below]; [simpl in Hbal; lia|].
    destruct top as [|x xs]; [by destruct rc|].
    destruct rc as [|c rc']; [done|].
    destruct below as [|parent rest]; [simpl in Hbal; lia|]. simpl in Hbal.
    destruct (operators !! c) as [op|] eqn:Hop.
    - destruct xs;
        (apply IH in Hrun as [Hin Hre];
         [split; [by right|done]|simpl in *; lia|done|simpl in *; lia]).
    - destruct (PyStr.first c) as [c0|] eqn:Hfirst.
      + apply IH in Hrun as [Hin Hre];
          [split; [by right|done]|simpl in *; lia|done|simpl in *; lia].
      + apply first_None in Hfirst as ->. rewrite Hop in Hempty.
        by destruct Hempty. }
  destruct (decide (k = "(")) as [->|Hopen].
  { apply IH in Hrun as [Hin Hre];
      [split; [by right|done]|simpl in *; lia|done|simpl in *; lia]. }
  destruct (last_nonempty k Hk) as [kl Hkl]. rewrite Hkl in Hrun.
  destruct (bool_decide (kl = "?"%char)
            || bool_decide (is_Some (operators !! k))).
  { destruct words1 as [|k2 words2]; [done|].
    destruct (decide (k2 = "(")) as [Hk2|Hk2]; [|done].
    apply Forall_cons in Hne as [_ Hne]. simpl in Hlen.
    apply IH in Hrun as [Hin Hre];
      [split; [by do 2 right|done]|simpl in *; lia|done|simpl in *; lia]. }
  destruct (PyStr.contains "|"%char k); [done|].
  destruct depsets as [|top below]; [simpl in Hbal; lia|].
  destruct allow_src_uri_file_renames.
  { destruct words1 as [|k2 words2].
    - destruct (element_func k None) as [e|x] eqn:Hx.
      + injection Hrun as <- ->. split; [by left|by eexists].
      + apply IH in Hrun as [Hin Hre];
          [split; [by right|done]|simpl in *; lia|done|simpl in *; lia].
    - destruct (decide (k2 = "->")) as [Harrow|Harrow].
      + destruct words2 as [|k3 words3]; [done|].
        apply Forall_cons in Hne as [_ [_ Hne]%Forall_cons]. simpl in Hlen.
        destruct (element_func k (Some k3)) as [e|x] eqn:Hx.
        * injection Hrun as <- ->. split; [by left|by eexists].
        * apply IH in Hrun as [Hin Hre];
            [split; [by do 3 right|done]|simpl in *; lia|done|simpl in *; lia].
      + destruct (element_func k None) as [e|x] eqn:Hx.
        * injection Hrun as <- ->. split; [by left|by eexists].
        * apply IH in Hrun as [Hin Hre];
            [split; [by right|done]|simpl in *; lia|done|simpl in *; lia]. }
  destruct (element_func k None) as [e|x] eqn:Hx.
  - injection Hrun as <- ->. split; [by left|by eexists].
  - apply IH in Hrun as [Hin Hre];
      [split; [by right|done]|simpl in *; lia|done|simpl in *; lia].
Qed.

End parser_words.

Section parse_words_of_string.
Context {A : Type} `{Countable A}.
Variable instantiate : ElementClass → string → option string → exn + element A.

(** X14: without file renames, [parse] calls the element function once
    on each leaf word of the string, in the order of the string, and the
    elements of the tree it returns, read from left to right, are the
    results of these calls: no leaf is dropped, repeated or moved. *)
Theorem parse_leaf_order dep_str element_class operators element_func
    (transitive_use_atoms : bool) (t : DepSet A) :
  parse instantiate dep_str element_class operators element_func
        transitive_use_atoms false = inr t →
  Forall2 (λ k e, default (instantiate element_class) element_func k None = inr e)
          (leaf_words (default default_operators operators)
                      (PyStr.split dep_str))
          (concat (map tree_elements (restrictions t))).
Proof.
  intros (rc & nc & Hrun & _)%parse_inr.
  apply parse_words_leaf_order with (n := length (PyStr.split dep_str)) in Hrun
    as (es & HF & Hel); [|done].
  unfold frames_elements in Hel. simpl in Hel. rewrite app_nil_r in Hel.
  by subst es.
Qed.

(** X15: without file renames, a string that [parse] accepts has as many
    words [(] as words [)]. *)
Theorem parse_balanced dep_str element_class operators element_func
    (transitive_use_atoms : bool) (t : DepSet A) :
  parse instantiate dep_str element_class operators element_func
        transitive_use_atoms false = inr t →
  count_word "(" (PyStr.split dep_str) = count_word ")" (PyStr.split dep_str).
Proof.
  intros (rc & nc & Hrun & _)%parse_inr.
  apply parse_words_balance with (n := length (PyStr.split dep_str)) in Hrun
    as [Hc Hl]; [|done].
  simpl in Hc, Hl. specialize (Hl eq_refl). lia.
Qed.

(** X16: with [allow_src_uri_file_renames] the native parser is never
    called, and on a string with no word [->] the flag changes nothing
    in the pure-Python loop: whatever [parse_depset] is, [DepSet.parse]
    with the flag returns the DepSet, or raises the exception, that
    [DepSet.parse] without the flag gives when the extension is
    missing. *)
Theorem parse_renames_inert (parse_depset : option native_parser)
    dep_str element_class operators element_func
    (transitive_use_atoms : bool) :
  "->" ∉ PyStr.split dep_str →
  DepSet_parse instantiate parse_depset dep_str element_class operators
    element_func transitive_use_atoms true
  = DepSet_parse instantiate None dep_str element_class operators
      element_func transitive_use_atoms false.
Proof.
  intros Hno. unfold DepSet_parse, native_call.
  assert (Hloop : parse instantiate dep_str element_class operators
                    element_func transitive_use_atoms true
                  = parse instantiate dep_str element_class operators
                      element_func transitive_use_atoms false).
  { unfold parse.
    by rewrite parse_words_no_rename
      with (n := length (PyStr.split dep_str)). }
  by destruct parse_depset.
Qed.

(** X17: with an operator map that has the empty tag, as the default one
    has, an [IndexError] raised by [parse] was raised by the element
    function on a word of the string: the parser's own accesses to its
    frames never fail. *)
Theorem parse_IndexError_origin dep_str element_class operators element_func
    (transitive_use_atoms allow_src_uri_file_renames : bool) :
  is_Some (default default_operators operators !! "") →
  parse instantiate dep_str element_class operators element_func
        transitive_use_atoms allow_src_uri_file_renames = inl IndexError →
  ∃ k rename,
    k ∈ PyStr.split dep_str
    ∧ default (instantiate element_class) element_func k rename
      = inl IndexError.
Proof.
  intros Hempty. unfold parse.
  destruct (parse_words _ _ _ _ _ _ _ _) as [[k e]|[[[|rs [|]] rc] nc]] eqn:Hrun;
    try by destruct (transitive_use_atoms && negb nc).
  intros [= He].
  assert (e = IndexError) as -> by (by destruct e).
  apply parse_words_IndexError with (n := length (PyStr.split dep_str)) in Hrun
    as [Hin [rename Hre]]; [|done|done|apply split_nonempty|done].
  by exists k, rename.
Qed.

End parse_words_of_string.

(** X14 on [a x? ( b || ( c d ) )]. *)
Lemma parse_leaf_order_witness :
  Forall2 (λ k e, text_element k None = inr e)
          (leaf_words default_operators
                      (PyStr.split "a x? ( b || ( c d ) )"))
          [PlainElement "a"; PlainElement "b"; PlainElement "c";
           PlainElement "d"].
Proof.
  apply (parse_leaf_order text_instantiate "a x? ( b || ( c d ) )" atom
           None None false
           (DepSet_init
              [Leaf "a";
               Conditional "use" (use_flag "x")
                 [Leaf "b"; Group OrRestriction [Leaf "c"; Leaf "d"]]]
              atom (NCBool true))).
  vm_compute. reflexivity.
Defined.

(** X15 on [x? ( a || ( b c ) )]. *)
Lemma parse_balanced_witness :
  count_word "(" (PyStr.split "x? ( a || ( b c ) )")
  = count_word ")" (PyStr.split "x? ( a || ( b c ) )").
Proof.
  apply (parse_balanced text_instantiate "x? ( a || ( b c ) )" atom None None
           false
           (DepSet_init
              [Conditional "use" (use_flag "x")
                 [Leaf "a"; Group OrRestriction [Leaf "b"; Leaf "c"]]]
              atom (NCBool true))).
  vm_compute. reflexivity.
Defined.

(** X16 on [a x? ( b )], with a native parser at hand. *)
Lemma parse_renames_inert_witness :
  DepSet_parse text_instantiate
    (Some (λ _ _ _ _, inr (false, Some [Leaf "n"])))
    "a x? ( b )" atom None None false true
  = DepSet_parse text_instantiate None "a x? ( b )" atom None None false false.
Proof.
  apply (parse_renames_inert text_instantiate
           (Some (λ _ _ _ _, inr (false, Some [Leaf "n"])))
           "a x? ( b )" atom None None false).
  vm_compute. intros Hin.
  repeat (apply elem_of_cons in Hin as [Hin|Hin]; [discriminate Hin|]).
  by apply elem_of_nil in Hin.
Defined.

(** X17 on an element function that raises [IndexError]. *)
Lemma parse_IndexError_origin_witness :
  ∃ k rename,
    k ∈ PyStr.split "a"
    ∧ (λ (_ : string) (_ : option string),
         inl IndexError : exn + element string) k rename
      = inl IndexError.
Proof.
  apply (parse_IndexError_origin (λ _ _ _, inl IndexError) "a" atom None None
           false false).
  - by eexists.
  - reflexivity.
Defined.

(** ** Round trip: stringifying a tree and parsing its text *)

Section text_of_tree.
Context {A : Type} `{Countable A}.
Variable dep_str : string.
Variable element_func : string → option string → exn + element A.
Variable func : leaf_obj → string.
Variable σ : A → leaf_obj.

Abbreviation canonical_node := (canonical func σ element_func).

(** Induction over a canonical tree. *)
Lemma canonical_ind' (P : node A → Prop) :
  (∀ a, word (func (σ a)) = true → leaf_token (func (σ a)) = true →
        element_func (func (σ a)) None = inr (PlainElement a) → P (Leaf a)) →
  (∀ a cs, word (func (σ a)) = true → leaf_token (func (σ a)) = true →
           element_func (func (σ a)) None = inr (TransitiveElement a cs) →
           P (TransitiveLeaf a cs)) →
  (∀ cls rs, (2 ≤ length rs)%nat → Forall canonical_node rs → Forall P rs →
             P (Group cls rs)) →
  (∀ r ps, word (conditional_token r) = true →
           flag_restriction (conditional_token r) = r →
           (1 ≤ length ps)%nat → Forall canonical_node ps → Forall P ps →
           P (Conditional "use" r ps)) →
  ∀ n, canonical_node n → P n.
Proof.
  intros HLeaf HTrans HGroup HCond.
  induction n as [a|a cs IH|cls rs IH|attr r ps IH] using node_ind';
    intros Hn; inversion Hn; subst.
  - by apply HLeaf.
  - by apply HTrans.
  - apply HGroup; [done..|].
    rewrite Forall_forall in *. intros n Hin. apply IH; [done|]. by eauto.
  - apply HCond; [done..|].
    rewrite Forall_forall in *. intros n Hin. apply IH; [done|]. by eauto.
Qed.

Lemma last_snoc (s : string) (c : ascii) :
  PyStr.last (s +:+ String c "") = Some c.
Proof.
  induction s as [|d s IH]; [done|].
  rewrite string_app_cons. destruct s as [|e s]; [done|].
  rewrite string_app_cons in *. exact IH.
Qed.

Lemma conditional_token_inv (r : ContainmentMatch) :
  word (conditional_token r) = true →
  ∃ v, elements (vals r) = [v]
       ∧ PyStr.last (conditional_token r) = Some "?"%char
       ∧ (if negate r then "!" else "") +:+ v +:+ "? ("
         = conditional_token r +:+ " (".
Proof.
  unfold conditional_token.
  destruct (elements (vals r)) as [|v [|]]; try done.
  intros _. exists v. split; [done|]. split.
  - rewrite <- string_app_assoc. apply last_snoc.
  - by rewrite !string_app_assoc.
Qed.

Lemma canonical_use_conditionals (n : node A) :
  canonical_node n → use_conditionals n = true.
Proof.
  revert n. apply canonical_ind'; try done.
  - intros cls rs _ _ Hrs. simpl. by apply Forall_forallb.
  - intros r ps (v & Hv & _)%conditional_token_inv _ _ _ Hps. simpl.
    apply Forall_forallb in Hps as ->.
    unfold size, set_size. simpl. by rewrite Hv.
Qed.

Lemma canonical_tokens_words (n : node A) :
  canonical_node n → Forall (λ k, word k = true) (tokens func σ n).
Proof.
  revert n. apply canonical_ind'.
  - intros a Hw _ _. by repeat constructor.
  - intros a cs Hw _ _. by repeat constructor.
  - intros cls rs _ _ Hrs. simpl. apply Forall_app. split.
    + by destruct cls; repeat constructor.
    + apply Forall_app. split; [|by repeat constructor].
      apply Forall_concat, Forall_map. exact Hrs.
  - intros r ps Hw _ _ _ Hps. simpl. repeat (apply Forall_cons; split; [done|]).
    apply Forall_app. split; [|by repeat constructor].
    apply Forall_concat, Forall_map. exact Hps.
Qed.

Lemma join_sep_concat_map (f g : node A → list string) (ns : list (node A)) :
  Forall (λ n, join_sep (f n) = join_sep (g n)) ns →
  join_sep (concat (map f ns)) = join_sep (concat (map g ns)).
Proof.
  induction 1 as [|n ns Hn _ IH]; [done|]. simpl.
  by rewrite !join_sep_app, Hn, IH.
Qed.

(** The strings the stringifier visits and the tokens of the tree have
    the same text. *)
Lemma rendered_tokens (n : node A) :
  canonical_node n →
  join_sep (rendered func σ n) = join_sep (tokens func σ n).
Proof.
  revert n. apply canonical_ind'; try done.
  - intros cls rs _ _ Hrs. simpl.
    apply join_sep_concat_map in Hrs. destruct cls.
    + change (["("] ++ ?l) with ("(" :: l).
      by rewrite !join_sep_cons, !join_sep_app, Hrs.
    + change (["||"; "("] ++ ?l) with ("||" :: "(" :: l).
      by rewrite !join_sep_cons, !join_sep_app, Hrs.
  - intros r ps (v & Hv & _ & Htext)%conditional_token_inv _ _ _ Hps. simpl.
    rewrite Hv, Htext. apply join_sep_concat_map in Hps.
    rewrite !join_sep_cons, !join_sep_app, Hps.
    by rewrite string_app_assoc.
Qed.

Abbreviation run_text :=
  (parse_words dep_str default_operators element_func false).

Lemma parse_words_all_tokens (ns : list (node A)) :
  Forall (λ n, ∀ rest top below rc nc, ∃ nc',
            run_text (tokens func σ n ++ rest) (top :: below) rc nc
            = run_text rest ((top ++ [n]) :: below) rc nc') ns →
  ∀ rest top below rc nc, ∃ nc',
    run_text (concat (map (tokens func σ) ns) ++ rest) (top :: below) rc nc
    = run_text rest ((top ++ ns) :: below) rc nc'.
Proof.
  induction 1 as [|n ns Hn _ IH]; intros rest top below rc nc.
  - exists nc. by rewrite app_nil_r.
  - destruct (Hn (concat (map (tokens func σ) ns) ++ rest) top below rc nc)
      as [nc1 Hnc1].
    destruct (IH rest (top ++ [n]) below rc nc1) as [nc' Hnc'].
    exists nc'. simpl. rewrite <- app_assoc, Hnc1, Hnc'.
    by rewrite <- app_assoc.
Qed.

(** The parser reads the tokens of a canonical node back as that node. *)
Lemma parse_words_tokens (n : node A) :
  canonical_node n →
  ∀ rest top below rc nc, ∃ nc',
    run_text (tokens func σ n ++ rest) (top :: below) rc nc
    = run_text rest ((top ++ [n]) :: below) rc nc'.
Proof.
  revert n.
  apply (canonical_ind'
           (λ n, ∀ rest top below rc nc, ∃ nc',
              run_text (tokens func σ n ++ rest) (top :: below) rc nc
              = run_text rest ((top ++ [n]) :: below) rc nc')).
  - intros a Hw Hl Hx rest top below rc nc. exists nc.
    change (tokens func σ (Leaf a) ++ rest) with (func (σ a) :: rest).
    by rewrite (parse_words_leaf dep_str element_func _ _ _ _ _ _ _ Hw Hl Hx).
  - intros a cs Hw Hl Hx rest top below rc nc. exists nc.
    change (tokens func σ (TransitiveLeaf a cs) ++ rest)
      with (func (σ a) :: rest).
    by rewrite (parse_words_leaf dep_str element_func _ _ _ _ _ _ _ Hw Hl Hx).
  - intros cls rs Hlen _ Hrs rest top below rc nc.
    destruct cls.
    + destruct (parse_words_all_tokens rs Hrs (")" :: rest) [] (top :: below)
                  ("" :: rc) nc) as [nc' Hnc'].
      exists nc'.
      change (tokens func σ (Group AndRestriction rs) ++ rest)
        with ("(" :: (concat (map (tokens func σ) rs) ++ [")"]) ++ rest).
      rewrite <- app_assoc, parse_words_open.
      change ([")"] ++ rest) with (")" :: rest). rewrite Hnc'.
      change ([] ++ rs) with rs.
      by rewrite parse_words_close_group with (op := AndRestriction);
        [|done|lia].
    + destruct (parse_words_all_tokens rs Hrs (")" :: rest) [] (top :: below)
                  ("||" :: rc) nc) as [nc' Hnc'].
      exists nc'.
      change (tokens func σ (Group OrRestriction rs) ++ rest)
        with ("||" :: "(" :: (concat (map (tokens func σ) rs) ++ [")"]) ++ rest).
      rewrite <- app_assoc, parse_words_open_or.
      change ([")"] ++ rest) with (")" :: rest). rewrite Hnc'.
      change ([] ++ rs) with rs.
      by rewrite parse_words_close_group with (op := OrRestriction);
        [|done|lia].
  - intros r ps Hw Hr Hlen _ Hps rest top below rc nc.
    destruct (conditional_token_inv r Hw) as (v & _ & Hlast & _).
    destruct (parse_words_all_tokens ps Hps (")" :: rest) [] (top :: below)
                (conditional_token r :: rc) nc) as [nc' Hnc'].
    exists true.
    change (tokens func σ (Conditional "use" r ps) ++ rest)
      with (conditional_token r :: "("
              :: (concat (map (tokens func σ) ps) ++ [")"]) ++ rest).
    rewrite <- app_assoc, parse_words_open_conditional by done.
    change ([")"] ++ rest) with (")" :: rest). rewrite Hnc'.
    change ([] ++ ps) with ps.
    rewrite parse_words_close_conditional;
      [|by apply conditional_token_not_operator|done|lia].
    by rewrite Hr.
Qed.

End text_of_tree.

Section stringify_parse.
Context {A : Type} `{Countable A}.
Variable instantiate : ElementClass → string → option string → exn + element A.

(** X18: the other round trip. A DepSet whose nodes are canonical (each
    leaf is shown as a leaf token from which the element function builds
    that leaf, each group has two children or more, each conditional is
    on [use], has a child and is opened by a word that reads back as its
    restriction) stringifies, without a domain, to a string that [parse],
    with the default operators and without file renames, turns into a
    DepSet of the same nodes. *)
Theorem stringify_parse_round_trip (t : DepSet A) element_class element_func
    (transitive_use_atoms : bool) (func : leaf_obj → string)
    (σ : A → leaf_obj) :
  Forall (canonical func σ (default (instantiate element_class) element_func))
         (restrictions t) →
  ∃ s t',
    stringify_boolean (inl t) func None σ = (inr s, σ)
    ∧ parse instantiate s element_class None element_func
            transitive_use_atoms false = inr t'
    ∧ restrictions t' = restrictions t.
Proof.
  intros Hcan.
  exists (PyStr.join " " (concat (map (tokens func σ) (restrictions t)))).
  assert (Hwords : Forall (λ k, word k = true)
                     (concat (map (tokens func σ) (restrictions t)))).
  { apply Forall_concat, Forall_map. eapply Forall_impl; [exact Hcan|].
    intros n. apply canonical_tokens_words. }
  assert (Huse : Forall (λ n, use_conditionals n = true) (restrictions t)).
  { eapply Forall_impl; [exact Hcan|]. intros n.
    apply canonical_use_conditionals. }
  assert (Hstr : stringify_boolean (inl t) func None σ
                 = (inr (PyStr.join " "
                           (concat (map (tokens func σ) (restrictions t)))), σ)).
  { unfold stringify_boolean.
    rewrite stringify_all_rendered by (by apply Forall_forallb). simpl.
    f_equal. f_equal. apply join_sep_inj.
    - destruct Hcan as [|n ns Hn _]; [done|]. simpl.
      pose proof (rendered_nonempty func σ n
                    (canonical_use_conditionals _ _ _ n Hn)) as Hr.
      split; intros Hnil; apply app_eq_nil in Hnil as [Hnil _].
      + done.
      + by destruct Hn as [| |[]|].
    - apply join_sep_concat_map. eapply Forall_impl; [exact Hcan|].
      intros n. apply rendered_tokens. }
  unfold parse. rewrite split_join by done. simpl default.
  destruct (parse_words_all_tokens
              (PyStr.join " " (concat (map (tokens func σ) (restrictions t))))
              (default (instantiate element_class) element_func) func σ
              (restrictions t)) with (rest := @nil string)
              (top := @nil (node A)) (below := @nil (list (node A)))
              (rc := @nil string) (nc := false) as [nc' Hnc'].
  { eapply Forall_impl; [exact Hcan|]. intros n. apply parse_words_tokens. }
  rewrite app_nil_r in Hnc'. rewrite Hnc'. simpl.
  destruct (transitive_use_atoms && negb nc'); eexists; by repeat split.
Qed.

End stringify_parse.

(** X18 on the tree of [a !x? ( b || ( c d ) )]. *)
Lemma stringify_parse_round_trip_witness :
  let t := DepSet_init
             [Leaf "a";
              Conditional "use" (mkContainmentMatch {[ "x" ]} true)
                [Leaf "b"; Group OrRestriction [Leaf "c"; Leaf "d"]]]
             atom (NCBool true) in
  ∃ s t',
    stringify_boolean (inl t) show_leaf None (λ a, OtherObj a)
    = (inr s, λ a, OtherObj a)
    ∧ parse text_instantiate s atom None None false false = inr t'
    ∧ restrictions t' = restrictions t.
Proof.
  apply (stringify_parse_round_trip text_instantiate).
  repeat first [ apply List.Forall_nil
               | apply List.Forall_cons
               | apply canonical_leaf
               | apply canonical_group
               | apply canonical_conditional
               | reflexivity
               | simpl; lia ].
Defined.

(** ** The parser and whitespace *)

Section whitespace.
Context {A : Type} `{Countable A}.
Variable instantiate : ElementClass → string → option string → exn + element A.

(** The loop uses [dep_str] only in the exceptions it raises. *)
Lemma parse_words_dep_str operators
    (element_func : string → option string → exn + element A)
    (allow_src_uri_file_renames : bool) (s1 s2 : string) (n : nat) :
  ∀ (words : list string) depsets raw_conditionals node_conds result,
    (length words ≤ n)%nat →
    parse_words s1 operators element_func allow_src_uri_file_renames
                words depsets raw_conditionals node_conds = inr result →
    parse_words s2 operators element_func allow_src_uri_file_renames
                words depsets raw_conditionals node_conds = inr result.
Proof.
  induction n as [|n IH]; intros words depsets rc nc result Hlen Hrun;
    destruct words as [|k words1]; simpl in Hlen; try lia; try done.
  simpl in Hrun. unfold raise in Hrun. simpl.
  repeat case_match; try discriminate Hrun; try done;
    (apply IH; [simpl in *; lia|done]).
Qed.

(** X20: only the words of the string matter to the result: two strings
    with the same words, however they are spaced, parse to the same
    DepSet, or both fail. *)
Theorem parse_same_words (s1 s2 : string) element_class operators element_func
    (transitive_use_atoms allow_src_uri_file_renames : bool) :
  PyStr.split s1 = PyStr.split s2 →
  ∀ t, parse instantiate s1 element_class operators element_func
             transitive_use_atoms allow_src_uri_file_renames = inr t
       ↔ parse instantiate s2 element_class operators element_func
               transitive_use_atoms allow_src_uri_file_renames = inr t.
Proof.
  assert (Hone : ∀ s1 s2 t,
    PyStr.split s1 = PyStr.split s2 →
    parse instantiate s1 element_class operators element_func
          transitive_use_atoms allow_src_uri_file_renames = inr t →
    parse instantiate s2 element_class operators element_func
          transitive_use_atoms allow_src_uri_file_renames = inr t).
  { clear s1 s2. intros s1 s2 t Hsplit. unfold parse.
    destruct (parse_words s1 _ _ _ _ _ _ _) as [[k e]|[[ds rc] nc]] eqn:Hrun;
      [done|].
    apply parse_words_dep_str with (s2 := s2) (n := length (PyStr.split s1))
      in Hrun; [|done].
    rewrite <- Hsplit, Hrun. by destruct ds as [|rs [|]]. }
  intros Hsplit t. split; by apply Hone.
Qed.

End whitespace.

(** X20 on two spacings of [a x? ( b )]. *)
Lemma parse_same_words_witness :
  parse_text "a x? ( b )"
  = inr (DepSet_init [Leaf "a"; Conditional "use" (use_flag "x") [Leaf "b"]]
                     atom (NCBool true))
  ↔ parse_text ("  a   x? (" +:+ String "009" " b )")
    = inr (DepSet_init [Leaf "a"; Conditional "use" (use_flag "x") [Leaf "b"]]
                       atom (NCBool true)).
Proof.
  apply (parse_same_words text_instantiate "a x? ( b )"
           ("  a   x? (" +:+ String "009" " b )") atom None None false false).
  vm_compute. reflexivity.
Defined.

(** ** The flag [parse] stores and the dict it stands for *)

Section flag_sound.
Context {A : Type} `{Countable A}.
Variable instantiate : ElementClass → string → option string → exn + element A.

Lemma existsb_false {X} (f : X → bool) (l : list X) :
  existsb f l = false ↔ Forall (λ x, f x = false) l.
Proof.
  induction l as [|x l IH]; simpl; [done|].
  rewrite Forall_cons, orb_false_iff. by rewrite IH.
Qed.

Lemma elem_of_concat_map_inv {X Y} (f : X → list Y) (l : list X) (y : Y) :
  y ∈ concat (map f l) → ∃ x, x ∈ l ∧ y ∈ f x.
Proof.
  induction l as [|x l IH]; simpl; [by intros ?%elem_of_nil|].
  intros [Hy|Hy]%elem_of_app.
  - exists x. split; [left|done].
  - destruct (IH Hy) as (x' & Hx' & Hy'). exists x'. split; [by right|done].
Qed.

(** A node with no conditional and no transitive atom in it is made of
    groups and plain leaves. *)
Lemma plain_conditional_free (n : node A) :
  holds_conditional n = false → is_or_holds_transitive n = false →
  conditional_free n = true.
Proof.
  induction n as [a|a cs IH|cls rs IH|attr r ps IH] using node_ind'; simpl;
    try done.
  intros Hc%existsb_false Ht%existsb_false. apply Forall_forallb.
  rewrite Forall_forall in *. intros n Hn. apply IH; auto.
Qed.

Lemma yielded_conditional_free (n : node A) :
  conditional_free n = true →
  ∀ stack y, y ∈ yielded true stack n → y.2 = stack.
Proof.
  induction n as [a|a cs IH|cls rs IH|attr r ps IH] using node_ind'; simpl;
    intros Hn stack y; try done.
  - rewrite orb_true_r. by intros ->%list_elem_of_singleton.
  - intros (n & Hin & Hy)%elem_of_concat_map_inv.
    apply Forall_forallb in Hn. rewrite Forall_forall in IH, Hn.
    eapply IH; [done|by apply Hn|done].
  - intros (n & Hin & Hy)%elem_of_concat_map_inv.
    apply Forall_forallb in Hn. rewrite Forall_forall in IH, Hn.
    eapply IH; [done|by apply Hn|done].
Qed.

Lemma compute_node_conds_conditional_free (rs : list (node A)) :
  forallb conditional_free rs = true → compute_node_conds rs = inr ∅.
Proof.
  intros Hrs. destruct (compute_node_conds_total rs) as [d Hd].
  rewrite Hd. f_equal. apply map_empty. intros L.
  rewrite (compute_node_conds_lookup rs d L Hd).
  case_bool_decide; [done|].
  destruct (conds_for L _) as [|c cs] eqn:Hcs; [done|].
  assert (Hc : c ∈ conds_for L (concat (map (yielded true []) rs)))
    by (rewrite Hcs; left).
  apply elem_of_conds_for in Hc as (stack & Hin & Hne & _).
  apply elem_of_concat_map_inv in Hin as (n & Hn & Hy).
  apply Forall_forallb in Hrs. rewrite Forall_forall in Hrs.
  by apply (yielded_conditional_free n (Hrs n Hn)) in Hy.
Qed.

(** X21: the flag [parse] stores is sound. When the DepSet it returns
    reports no conditionals, and transitive use atoms were either asked
    for or are not among its elements, the empty dict [node_conds] puts
    in place of the flag is the dict the walk over the tree would have
    computed. *)
Theorem parse_flag_sound dep_str element_class operators element_func
    (transitive_use_atoms allow_src_uri_file_renames : bool) (t : DepSet A) :
  parse instantiate dep_str element_class operators element_func
        transitive_use_atoms allow_src_uri_file_renames = inr t →
  has_conditionals t = false →
  transitive_use_atoms = true
  ∨ _has_transitive_use_atoms (restrictions t) = false →
  ∃ t', node_conds t = inr (∅, t')
        ∧ compute_node_conds (restrictions t) = inr ∅.
Proof.
  intros (rc & nc & Hrun & Ht)%parse_inr Hhas Htrans.
  apply parse_words_node_conds with (n := length (PyStr.split dep_str)) in Hrun;
    [|done..].
  unfold frames_hold_conditional in Hrun. simpl in Hrun.
  rewrite orb_false_r in Hrun.
  assert (nc = false ∧ _has_transitive_use_atoms (restrictions t) = false)
    as [-> Hta].
  { rewrite Ht in Hhas. destruct transitive_use_atoms, nc; simpl in *;
      destruct Htrans; done. }
  assert (Hflag : _node_conds t = NCBool false).
  { rewrite Ht. destruct transitive_use_atoms; simpl; [|done]. by rewrite Hta. }
  unfold node_conds. rewrite Hflag. eexists. split; [done|].
  apply compute_node_conds_conditional_free, Forall_forallb.
  symmetry in Hrun. apply existsb_false in Hrun, Hta.
  rewrite Forall_forall in *. intros n Hn.
  apply plain_conditional_free; auto.
Qed.

End flag_sound.

(** X21 on the DepSet parsed from [a || ( b c )]. *)
Lemma parse_flag_sound_witness :
  ∃ t', node_conds
          (DepSet_init [Leaf "a"; Group OrRestriction [Leaf "b"; Leaf "c"]]
                       atom (NCBool false)) = inr (∅, t')
        ∧ compute_node_conds
            [Leaf "a"; Group OrRestriction [Leaf "b"; Leaf "c"]] = inr ∅.
Proof.
  apply (parse_flag_sound text_instantiate "a || ( b c )" atom None None
           false false
           (DepSet_init [Leaf "a"; Group OrRestriction [Leaf "b"; Leaf "c"]]
                        atom (NCBool false))).
  - vm_compute. reflexivity.
  - reflexivity.
  - by right.
Defined.

(** ** The parser and renamed files *)

Section renames.
Context {A : Type}.
Variable dep_str : string.
Variable operators : gmap string boolean_cls.
Variable element_func : string → option string → exn + element A.

Lemma leaf_calls_skip allow k words :
  k = ")" ∨ k = "(" ∨ opens_group operators k = true →
  leaf_calls operators allow (k :: words) = leaf_calls operators allow words.
Proof.
  intros Hk. simpl. repeat case_decide; try done.
  destruct Hk as [?|[?|Hog]]; [done..|]. by rewrite Hog.
Qed.

Lemma leaf_calls_rename k k3 words :
  k ≠ ")" → k ≠ "(" → opens_group operators k = false →
  leaf_calls operators true (k :: "->" :: k3 :: words)
  = (k, Some k3) :: leaf_calls operators true words.
Proof. intros Hc Ho Hog. simpl. rewrite !decide_False by done. by rewrite Hog. Qed.

Lemma leaf_calls_plain k words :
  k ≠ ")" → k ≠ "(" → opens_group operators k = false →
  (∀ k3 ws, words ≠ "->" :: k3 :: ws) →
  leaf_calls operators true (k :: words)
  = (k, None) :: leaf_calls operators true words.
Proof.
  intros Hc Ho Hog Hw.
  change (leaf_calls operators true (k :: words))
    with (if decide (k = ")") then leaf_calls operators true words
          else if decide (k = "(") then leaf_calls operators true words
          else if opens_group operators k then leaf_calls operators true words
          else match words with
               | k2 :: k3 :: words3 =>
                 if decide (k2 = "->")
                 then (k, Some k3) :: leaf_calls operators true words3
                 else (k, None) :: leaf_calls operators true words
               | _ => (k, None) :: leaf_calls operators true words
               end).
  rewrite !decide_False by done. rewrite Hog.
  destruct words as [|k2 [|k3 ws]]; try done.
  case_decide as Hk2; [|done]. subst k2. by destruct (Hw k3 ws).
Qed.

(** With file renames allowed, the loop hands each leaf word to the
    element function, together with the word after [->] when one
    follows, and appends what it returns to the innermost frame. *)
Lemma parse_words_leaf_calls (n : nat) :
  ∀ (words : list string) depsets raw_conditionals node_conds result,
    (length words ≤ n)%nat →
    parse_words dep_str operators element_func true
                words depsets raw_conditionals node_conds = inr result →
    ∃ es,
      Forall2 (λ c e, element_func c.1 c.2 = inr e)
              (leaf_calls operators true words) es
      ∧ frames_elements result.1.1 = frames_elements depsets ++ es.
Proof.
  induction n as [|n IH]; intros words depsets rc nc result Hlen Hrun;
    destruct words as [|k words1]; simpl in Hlen; try lia.
  - exists []. simplify_eq/=. split; [constructor|by rewrite app_nil_r].
  - exists []. simplify_eq/=. split; [constructor|by rewrite app_nil_r].
  - simpl in Hrun. unfold raise in Hrun.
    destruct (decide (k = ")")) as [->|Hclose].
    { rewrite leaf_calls_skip by auto.
      repeat case_match; try discriminate Hrun;
        (apply IH in Hrun as (es & HF & Hel); [|lia]);
        exists es; (split; [done|]); rewrite Hel; f_equal;
        apply frames_elements_close; simpl; by rewrite ?app_nil_r. }
    destruct (decide (k = "(")) as [->|Hopen].
    { rewrite leaf_calls_skip by auto.
      apply IH in Hrun as (es & HF & Hel); [|lia].
      exists es. split; [done|]. rewrite Hel, frames_elements_cons. simpl.
      by rewrite app_nil_r. }
    destruct (PyStr.last k) as [kl|] eqn:Hkl; [|done].
    rewrite <- (opens_group_last operators k kl Hkl) in Hrun.
    destruct (opens_group operators k) eqn:Hog.
    { rewrite leaf_calls_skip by auto.
      destruct words1 as [|k2 words2]; [done|].
      destruct (decide (k2 = "(")) as [->|]; [|done].
      rewrite leaf_calls_skip by auto. simpl in Hlen.
      apply IH in Hrun as (es & HF & Hel); [|lia].
      exists es. split; [done|]. rewrite Hel, frames_elements_cons. simpl.
      by rewrite app_nil_r. }
    destruct (PyStr.contains "|"%char k); [done|].
    destruct depsets as [|top below]; [done|].
    destruct words1 as [|k2 words2].
    { destruct (element_func k None) as [e|x] eqn:Hx; [done|].
      rewrite leaf_calls_plain by done.
      apply IH in Hrun as (es & HF & Hel); [|simpl; lia].
      exists (x :: es). split; [by constructor|].
      rewrite Hel, frames_elements_leaf. by rewrite <- app_assoc. }
    destruct (decide (k2 = "->")) as [->|Harrow].
    { destruct words2 as [|k3 words3]; [done|].
      destruct (element_func k (Some k3)) as [e|x] eqn:Hx; [done|].
      rewrite leaf_calls_rename by done. simpl in Hlen.
      apply IH in Hrun as (es & HF & Hel); [|lia].
      exists (x :: es). split; [by constructor|].
      rewrite Hel, frames_elements_leaf. by rewrite <- app_assoc. }
    destruct (element_func k None) as [e|x] eqn:Hx; [done|].
    rewrite leaf_calls_plain by (try done; by intros k3 ws [= ? _]).
    apply IH in Hrun as (es & HF & Hel); [|lia].
    exists (x :: es). split; [by constructor|].
    rewrite Hel, frames_elements_leaf. by rewrite <- app_assoc.
Qed.

End renames.

Section parse_renames.
Context {A : Type} `{Countable A}.
Variable instantiate : ElementClass → string → option string → exn + element A.

(** X22: with file renames allowed, [parse] calls the element function
    once for each leaf word of the string, in the order of the string,
    with the word alone or, when the next word is [->], with the word
    and the word after the arrow, whatever that word is; the arrow and
    the word after it stand for no element of their own. The elements
    of the tree returned, read from left to right, are the results of
    these calls. *)
Theorem parse_rename_calls dep_str element_class operators element_func
    (transitive_use_atoms : bool) (t : DepSet A) :
  parse instantiate dep_str element_class operators element_func
        transitive_use_atoms true = inr t →
  Forall2 (λ c e, default (instantiate element_class) element_func c.1 c.2
                  = inr e)
          (leaf_calls (default default_operators operators) true
                      (PyStr.split dep_str))
          (concat (map tree_elements (restrictions t))).
Proof.
  intros (rc & nc & Hrun & _)%parse_inr.
  apply parse_words_leaf_calls with (n := length (PyStr.split dep_str)) in Hrun
    as (es & HF & Hel); [|done].
  unfold frames_elements in Hel. simpl in Hel. rewrite app_nil_r in Hel.
  by subst es.
Qed.

End parse_renames.

(** X22 on [a -> ( x? ( b -> c d )]. *)
Lemma parse_rename_calls_witness :
  Forall2 (λ c e, text_element c.1 c.2 = inr e)
          (leaf_calls default_operators true
                      (PyStr.split "a -> ( x? ( b -> c d )"))
          [PlainElement "a -> ("; PlainElement "b -> c"; PlainElement "d"].
Proof.
  apply (parse_rename_calls text_instantiate "a -> ( x? ( b -> c d )" atom
           None None false
           (DepSet_init
              [Leaf "a -> (";
               Conditional "use" (use_flag "x") [Leaf "b -> c"; Leaf "d"]]
              atom (NCBool true))).
  vm_compute. reflexivity.
Defined.
